(** * readmesync: webhook authentication, fan-out fetch and request dispatch

    A shallow embedding of [src/readmesync/main.go] (and of the signing half
    of [src/syncall/main.go]).  Byte slices are lists of 8-bit integers, Go
    strings are [string]s, Go maps are [gmap]s, and the handler's side effects
    are recorded in an explicit trace.  The Go standard-library pieces the code
    calls ([crypto/sha1], [crypto/hmac], [crypto/subtle], [encoding/hex],
    [strings.Split]) are written out so that the verifier computes. *)

From Stdlib Require Import ZArith List Ascii String Lia.
From stdpp Require Import base gmap strings list fin_maps.
Import ListNotations.

(** ** Basic data *)

(** [[]byte]: every element is meant to lie in [0, 256). *)
Abbreviation bytes := (list Z).

(** Go's [error] values: only their message matters here. *)
Definition error := string.

Definition byte_of_ascii (c : ascii) : Z := Z.of_N (N_of_ascii c).

(** [[]byte(s)] *)
Fixpoint bytes_of_string (s : string) : bytes :=
  match s with
  | EmptyString => []
  | String c s' => byte_of_ascii c :: bytes_of_string s'
  end.

(** [s[n:]]: a run-time panic when [n > len(s)], modelled by [None]. *)
Fixpoint slice_from (n : nat) (s : string) : option string :=
  match n, s with
  | O, _ => Some s
  | S _, EmptyString => None
  | S n', String _ s' => slice_from n' s'
  end.

(** ** encoding/hex *)

Module Hex.
Local Open Scope Z_scope.

(** [hextable = "0123456789abcdef"] indexed by a nibble. *)
Definition hextable (n : Z) : ascii :=
  ascii_of_N (Z.to_N (if n <? 10 then 48 + n else 87 + n)).

(** [EncodeToString]: two lower-case digits per byte, high nibble first. *)
Fixpoint EncodeToString (src : bytes) : string :=
  match src with
  | [] => EmptyString
  | v :: rest =>
      String (hextable (Z.shiftr v 4))
        (String (hextable (Z.land v 15)) (EncodeToString rest))
  end.
End Hex.

(** ** hash.Hash *)

(** The part of Go's [hash.Hash] interface that the code uses.  [hWrite]
    returns the new state and the [error] result of [Write]. *)
Class Hash (H : Type) := {
  hWrite : H -> bytes -> H * option error;
  hSum : H -> bytes;
  hReset : H -> H;
  hBlockSize : H -> nat
}.

(** ** crypto/sha1 *)

Module SHA1.
Local Open Scope Z_scope.

Definition u32 (x : Z) : Z := x mod 2 ^ 32.
Definition RotateLeft32 (x k : Z) : Z :=
  u32 (Z.lor (Z.shiftl x k) (Z.shiftr x (32 - k))).
Definition not32 (x : Z) : Z := Z.lxor x (2 ^ 32 - 1).

Definition chunk : nat := 64.

Record digest := mkDigest {
  h : Z * Z * Z * Z * Z;
  x : bytes;      (* buffered input, shorter than one chunk *)
  len : Z         (* bytes written so far *)
}.

Definition init : Z * Z * Z * Z * Z :=
  (0x67452301, 0xEFCDAB89, 0x98BADCFE, 0x10325476, 0xC3D2E1F0).

Definition New : digest := {| h := init; x := []; len := 0 |}.

(** Big-endian 32-bit words of one chunk. *)
Fixpoint words (p : bytes) : list Z :=
  match p with
  | b0 :: b1 :: b2 :: b3 :: rest =>
      Z.lor (Z.lor (Z.lor (Z.shiftl b0 24) (Z.shiftl b1 16)) (Z.shiftl b2 8)) b3
      :: words rest
  | _ => []
  end.

(** The message schedule, written as the full 80 words instead of the
    16-word ring the Go code reuses. *)
Fixpoint expand (n : nat) (w : list Z) : list Z :=
  match n with
  | O => w
  | S n' =>
      let i := length w in
      let at_ k := nth (i - k)%nat w 0 in
      expand n' (w ++ [RotateLeft32 (Z.lxor (Z.lxor (Z.lxor (at_ 3%nat) (at_ 8%nat))
                                               (at_ 14%nat)) (at_ 16%nat)) 1])
  end.

Definition round (s : Z * Z * Z * Z * Z) (iw : nat * Z) : Z * Z * Z * Z * Z :=
  let '(a, b, c, d, e) := s in
  let '(i, w) := iw in
  let '(f, k) :=
    if (i <? 20)%nat then (Z.lor (Z.land b c) (Z.land (not32 b) d), 0x5A827999)
    else if (i <? 40)%nat then (Z.lxor (Z.lxor b c) d, 0x6ED9EBA1)
    else if (i <? 60)%nat then (Z.lor (Z.land (Z.lor b c) d) (Z.land b c), 0x8F1BBCDC)
    else (Z.lxor (Z.lxor b c) d, 0xCA62C1D6) in
  let t := u32 (RotateLeft32 a 5 + f + e + w + k) in
  (t, a, RotateLeft32 b 30, c, d).

(** One iteration of [blockGeneric]'s outer loop. *)
Definition block1 (hh : Z * Z * Z * Z * Z) (p : bytes) : Z * Z * Z * Z * Z :=
  let w := expand 64 (words p) in
  let '(a, b, c, d, e) := fold_left round (combine (seq 0 80) w) hh in
  let '(h0, h1, h2, h3, h4) := hh in
  (u32 (h0 + a), u32 (h1 + b), u32 (h2 + c), u32 (h3 + d), u32 (h4 + e)).

(** [block]: consume whole chunks; what is left is returned for buffering.
    [fuel] bounds the number of chunks. *)
Fixpoint block (fuel : nat) (hh : Z * Z * Z * Z * Z) (p : bytes)
  : (Z * Z * Z * Z * Z) * bytes :=
  match fuel with
  | O => (hh, p)
  | S fuel' =>
      if (chunk <=? length p)%nat
      then block fuel' (block1 hh (take chunk p)) (drop chunk p)
      else (hh, p)
  end.

(** [digest.Write]: its [err] result is never assigned, so it is [nil]. *)
Definition Write (d : digest) (p : bytes) : digest * option error :=
  let data := x d ++ p in
  let '(hh, rest) := block (length data) (h d) data in
  ({| h := hh; x := rest; len := len d + Z.of_nat (length p) |}, None).

Definition be_bytes (n : nat) (v : Z) : bytes :=
  map (fun i => Z.land (Z.shiftr v (8 * Z.of_nat i)) 255) (rev (seq 0 n)).

(** [checkSum]: pad with 0x80, zeros up to 56 mod 64, and the bit length. *)
Definition checkSum (d : digest) : bytes :=
  let l := len d in
  let npad := if l mod 64 <? 56 then 56 - l mod 64 else 64 + 56 - l mod 64 in
  let pad := 0x80 :: repeat 0 (Z.to_nat (npad - 1)) in
  let '(d1, _) := Write d pad in
  let '(d2, _) := Write d1 (be_bytes 8 (Z.shiftl l 3)) in
  let '(h0, h1, h2, h3, h4) := h d2 in
  be_bytes 4 h0 ++ be_bytes 4 h1 ++ be_bytes 4 h2 ++ be_bytes 4 h3 ++ be_bytes 4 h4.

(** [Sum(nil)] works on a copy, so the state is unchanged. *)
Definition Sum (d : digest) : bytes := checkSum d.

#[global] Instance sha1_Hash : Hash digest := {
  hWrite := Write;
  hSum := Sum;
  hReset := fun _ => New;
  hBlockSize := fun _ => chunk
}.
End SHA1.

(** ** crypto/hmac *)

Module HMAC.
Local Open Scope Z_scope.

Section WithHash.
Context {H : Type} `{Hash H}.

Record hmac := mkHmac {
  opad : bytes;
  ipad : bytes;
  outer : H;
  inner : H
}.

(** [copy(make([]byte, n), key)] *)
Definition pad_to (n : nat) (key : bytes) : bytes :=
  take n key ++ repeat 0 (n - length key)%nat.

(** [hmac.New(h, key)] *)
Definition New (h : H) (key : bytes) : hmac :=
  let blocksize := hBlockSize h in
  let key' :=
    if (blocksize <? length key)%nat then hSum (fst (hWrite h key)) else key in
  let ip := map (fun b => Z.lxor b 0x36) (pad_to blocksize key') in
  let op := map (fun b => Z.lxor b 0x5c) (pad_to blocksize key') in
  {| opad := op; ipad := ip; outer := h; inner := fst (hWrite h ip) |}.

(** [hmac.Write]: the inner hash's [Write], result and all. *)
Definition Write (m : hmac) (p : bytes) : hmac * option error :=
  let '(i', err) := hWrite (inner m) p in
  ({| opad := opad m; ipad := ipad m; outer := outer m; inner := i' |}, err).

(** [hmac.Sum(nil)] *)
Definition Sum (m : hmac) : bytes :=
  let inn := hSum (inner m) in
  let o0 := hReset (outer m) in
  let o1 := fst (hWrite o0 (opad m)) in
  let o2 := fst (hWrite o1 inn) in
  hSum o2.

Definition Reset (m : hmac) : hmac :=
  {| opad := opad m; ipad := ipad m; outer := outer m;
     inner := fst (hWrite (hReset (inner m)) (ipad m)) |}.

#[global] Instance hmac_Hash : Hash hmac := {
  hWrite := Write;
  hSum := Sum;
  hReset := Reset;
  hBlockSize := fun m => hBlockSize (inner m)
}.
End WithHash.

(** [subtle.ConstantTimeCompare]: the or of the byte-wise xors. *)
Fixpoint ct_fold (v : Z) (x y : bytes) : Z :=
  match x, y with
  | a :: x', b :: y' => ct_fold (Z.lor v (Z.lxor a b)) x' y'
  | _, _ => v
  end.

Definition ConstantTimeCompare (x y : bytes) : Z :=
  if (length x =? length y)%nat
  then (if ct_fold 0 x y =? 0 then 1 else 0)
  else 0.

(** [hmac.Equal] *)
Definition Equal (mac1 mac2 : bytes) : bool :=
  ConstantTimeCompare mac1 mac2 =? 1.
End HMAC.

(** ** The verifier *)

Section Verifier.
Context {H : Type} `{Hash H}.

(** [verifyWebhook], for the keyed hash that [new_mac secret] builds.  The
    source fixes it to [hmac.New(sha1.New, secret)]; see [verifyWebhook]. *)
Definition verifyWebhook_with (new_mac : bytes -> H) (mac body secret : bytes)
  : bool * option error :=
  let h := new_mac secret in
  match hWrite h body with
  | (_, Some err) => (false, Some err)
  | (h', None) =>
      let expectedMac := Hex.EncodeToString (hSum h') in
      (HMAC.Equal mac (bytes_of_string expectedMac), None)
  end.
End Verifier.

Definition hmac_sha1 (secret : bytes) : HMAC.hmac := HMAC.New SHA1.New secret.

Definition verifyWebhook (mac body secret : bytes) : bool * option error :=
  verifyWebhook_with hmac_sha1 mac body secret.

(** The signature the trigger client computes ([src/syncall/main.go], lines
    42-47): [hex.EncodeToString(h.Sum(nil))] after [h.Write(b)]. *)
Definition sign (secret b : bytes) : string :=
  Hex.EncodeToString (hSum (fst (hWrite (hmac_sha1 secret) b))).

(** ** The outside world *)

Record http_request := {
  req_method : string;
  req_url : string;
  req_accept : string;
  req_authorization : string
}.

(** What one outbound request comes to, step by step as [pullReadme] sees it. *)
Inductive http_result :=
| NewRequestFails (err : error)
| DoFails (err : error)
| ReadAllFails (err : error)
| Response (StatusCode : nat) (Status : string) (body : bytes).

(** The decoded webhook payload. *)
Record request := {
  Ref : string;
  Repository_Name : string;
  Repository_URL : string;
  Repos : list string
}.

Record World := {
  http_Do : http_request -> http_result;
  json_Unmarshal : bytes -> request + error;
  os_Create : string -> option error;
  file_Write : string -> string -> option error;
  time_Now : string;
  exec_CombinedOutput : string -> list string -> string * option error
}.

Inductive event :=
| EvFetch (pkg : string)
| EvLog (msg : string)
| EvCreate (path : string)
| EvWrite (path content : string)
| EvClose (path : string)
| EvExec (cmd : string) (args : list string).

(** The names fetched in a trace, in order. *)
Definition fetches (t : list event) : list string :=
  omap (fun ev => match ev with EvFetch p => Some p | _ => None end) t.

(** ** The document fetcher *)

Section Fetcher.
Variable W : World.

Definition pullReadme (pkg accessToken : string) : bytes * option error :=
  let req := {| req_method := "GET";
                req_url := "https://api.github.com/repos/darlinggo/" +:+ pkg +:+ "/readme";
                req_accept := "application/vnd.github.v3.raw";
                req_authorization := "token " +:+ accessToken |} in
  match http_Do W req with
  | NewRequestFails err => ([], Some err)
  | DoFails err => ([], Some err)
  | ReadAllFails err => ([], Some err)
  | Response code status body =>
      if negb (code =? 200)%nat
      then (body, Some (pkg +:+ ": non-200 status: " +:+ status))
      else (body, None)
  end.
End Fetcher.

(** ** The fan-out aggregator *)

(** [syncAll] starts one goroutine per name, one more that waits for the
    [WaitGroup] and closes the channel, and drains the (unbuffered) channel in
    the calling goroutine.  The model is the interleaving semantics of these
    goroutines: a state holds the program point of each, [step] runs one
    atomic action of one goroutine, and a schedule is a list of actions. *)
Module SyncAll.
Section Run.
(** [pull r] is [pullReadme(r, token)]. *)
Variable pull : string -> bytes * option error.

Inductive worker :=
| WStart (r : string)                 (* before [pullReadme(r, token)] *)
| WSend (r : string) (resp : bytes)   (* at [ch <- result{...}] *)
| WExit                               (* before the deferred [wg.Done()] *)
| WGone.

Inductive main_pc :=
| MLoop (rest : list string)          (* in [for _, repo := range repos] *)
| MRange                              (* at [for result := range resultChan] *)
| MReturned.

Inductive closer_pc :=
| CNone                               (* not started yet *)
| CWait                               (* at [wg.Wait()] *)
| CClose                              (* before [close(ch)] *)
| CGone.

Record state := mkState {
  pc : main_pc;
  workers : list worker;
  wg : nat;
  closer : closer_pc;
  closed : bool;
  results : gmap string bytes;
  trace : list event
}.

Inductive action := AMain | AWorker (i : nat) | ACloser.

Definition init (repos : list string) : state :=
  {| pc := MLoop repos; workers := []; wg := 0; closer := CNone;
     closed := false; results := ∅; trace := [] |}.

Definition step_main (s : state) : option state :=
  match pc s with
  | MLoop (repo :: rest) =>
      Some {| pc := MLoop rest; workers := workers s ++ [WStart repo];
              wg := S (wg s); closer := closer s; closed := closed s;
              results := results s; trace := trace s |}
  | MLoop [] =>
      Some {| pc := MRange; workers := workers s; wg := wg s; closer := CWait;
              closed := closed s; results := results s; trace := trace s |}
  | MRange =>
      if closed s
      then Some {| pc := MReturned; workers := workers s; wg := wg s;
                   closer := closer s; closed := closed s;
                   results := results s; trace := trace s |}
      else None
  | MReturned => None
  end.

Definition set_worker (s : state) (i : nat) (w : worker) : list worker :=
  <[i := w]> (workers s).

Definition step_worker (i : nat) (s : state) : option state :=
  match workers s !! i with
  | Some (WStart r) =>
      match pull r with
      | (_, Some err) =>
          Some {| pc := pc s; workers := set_worker s i WExit; wg := wg s;
                  closer := closer s; closed := closed s; results := results s;
                  trace := trace s ++ [EvFetch r; EvLog err] |}
      | (resp, None) =>
          Some {| pc := pc s; workers := set_worker s i (WSend r resp); wg := wg s;
                  closer := closer s; closed := closed s; results := results s;
                  trace := trace s ++ [EvFetch r] |}
      end
  | Some (WSend r resp) =>
      (* the send meets the receive of the range loop, whose body stores it *)
      match pc s, closed s with
      | MRange, false =>
          Some {| pc := pc s; workers := set_worker s i WExit; wg := wg s;
                  closer := closer s; closed := closed s;
                  results := <[r := resp]> (results s); trace := trace s |}
      | _, _ => None
      end
  | Some WExit =>
      Some {| pc := pc s; workers := set_worker s i WGone; wg := pred (wg s);
              closer := closer s; closed := closed s; results := results s;
              trace := trace s |}
  | Some WGone | None => None
  end.

Definition step_closer (s : state) : option state :=
  match closer s with
  | CWait =>
      if (wg s =? 0)%nat
      then Some {| pc := pc s; workers := workers s; wg := wg s; closer := CClose;
                   closed := closed s; results := results s; trace := trace s |}
      else None
  | CClose =>
      Some {| pc := pc s; workers := workers s; wg := wg s; closer := CGone;
              closed := true; results := results s; trace := trace s |}
  | CNone | CGone => None
  end.

(** One action of one goroutine; [None] when that goroutine is blocked or
    has finished. *)
Definition step (a : action) (s : state) : option state :=
  match a with
  | AMain => step_main s
  | AWorker i => step_worker i s
  | ACloser => step_closer s
  end.

(** Run a schedule; [None] if it names a goroutine that cannot move. *)
Fixpoint run (sched : list action) (s : state) : option state :=
  match sched with
  | [] => Some s
  | a :: sched' =>
      match step a s with
      | Some s' => run sched' s'
      | None => None
      end
  end.

Definition returned (s : state) : bool :=
  match pc s with MReturned => true | _ => false end.

(** The scheduler that always runs the first goroutine able to move. *)
Definition candidates (s : state) : list action :=
  AMain :: ACloser :: map AWorker (seq 0 (length (workers s))).

Fixpoint first_step (l : list action) (s : state) : option state :=
  match l with
  | [] => None
  | a :: l' =>
      match step a s with
      | Some s' => Some s'
      | None => first_step l' s
      end
  end.

Fixpoint drive (fuel : nat) (s : state) : state :=
  match fuel with
  | O => s
  | S fuel' =>
      match first_step (candidates s) s with
      | Some s' => drive fuel' s'
      | None => s
      end
  end.

(** An upper bound on the number of actions left. *)
Definition worker_weight (w : worker) : nat :=
  match w with WStart _ => 3 | WSend _ _ => 2 | WExit => 1 | WGone => 0 end.

Definition weight (s : state) : nat :=
  match pc s with
  | MLoop rest => 4 * length rest + 4
  | MRange => 1
  | MReturned => 0
  end
  + match closer s with CWait => 2 | CClose => 1 | CNone | CGone => 0 end
  + sum_list_with worker_weight (workers s).

(** [syncAll] under the first-able scheduler; that every other schedule
    returns the same mapping is [syncAll_schedule_independent] below. *)
Definition syncAll_state (repos : list string) : state :=
  drive (weight (init repos)) (init repos).

(** What the mapping must be: every name whose fetch succeeded, with its
    bytes. *)
Fixpoint fetched (repos : list string) : gmap string bytes :=
  match repos with
  | [] => ∅
  | r :: rest =>
      match pull r with
      | (resp, None) => <[r := resp]> (fetched rest)
      | (_, Some _) => fetched rest
      end
  end.

Definition failed (r : string) : bool :=
  match pull r with (_, Some _) => true | (_, None) => false end.

(** What the reachable states have in common. *)

Definition live (w : worker) : bool :=
  match w with WGone => false | _ => true end.

Definition live_count (ws : list worker) : nat := length (List.filter live ws).

Definition starting (ws : list worker) : list string :=
  omap (fun w => match w with WStart r => Some r | _ => None end) ws.

Definition unspawned (s : state) : list string :=
  match pc s with MLoop rest => rest | _ => [] end.

(** The names whose fetch has not been started yet. *)
Definition todo (s : state) : list string := unspawned s ++ starting (workers s).

Record inv (repos : list string) (s : state) : Prop := {
  inv_wg : wg s = live_count (workers s);
  inv_spawned : length (workers s) + length (unspawned s) = length repos;
  inv_closer : closer s = CNone <-> exists rest, pc s = MLoop rest;
  inv_closed : closed s = true <-> closer s = CGone;
  inv_joined : closer s = CClose \/ closer s = CGone -> wg s = 0;
  inv_returned : pc s = MReturned -> closed s = true;
  inv_sound : forall r resp,
    results s !! r = Some resp -> r ∈ repos /\ pull r = (resp, None);
  inv_sending : forall r resp,
    WSend r resp ∈ workers s -> r ∈ repos /\ pull r = (resp, None);
  inv_complete : forall r resp,
    r ∈ repos -> pull r = (resp, None) ->
    results s !! r = Some resp \/ r ∈ todo s \/ WSend r resp ∈ workers s;
  inv_fetches : fetches (trace s) ++ todo s ≡ₚ repos
}.
End Run.
End SyncAll.

Definition syncAll (W : World) (repos : list string) (token : string)
  : gmap string bytes :=
  SyncAll.results (SyncAll.syncAll_state (fun r => pullReadme W r token) repos).

(** ** The webhook handler *)

(** [strings.Split(s, sep)] for a one-character separator. *)
Fixpoint Split (sep : ascii) (s : string) : list string :=
  match s with
  | EmptyString => [EmptyString]
  | String c s' =>
      if Ascii.eqb c sep then EmptyString :: Split sep s'
      else match Split sep s' with
           | hd :: tl => String c hd :: tl
           | [] => [String c EmptyString]
           end
  end.

Fixpoint string_of_bytes (b : bytes) : string :=
  match b with
  | [] => EmptyString
  | v :: b' => String (ascii_of_N (Z.to_N v)) (string_of_bytes b')
  end.

Definition dq : string := String "034"%char EmptyString.
Definition nl : string := String "010"%char EmptyString.

(** [projectTmpl] executed on [{Name, Readme, Date}]: plain substitution. *)
Definition render (name readme date : string) : string :=
  nl +:+ "+++" +:+ nl
  +:+ "date = " +:+ dq +:+ date +:+ dq +:+ nl
  +:+ "title = " +:+ dq +:+ name +:+ dq +:+ nl
  +:+ "repo = " +:+ dq +:+ name +:+ dq +:+ nl
  +:+ "url = " +:+ dq +:+ "/" +:+ name +:+ dq +:+ nl
  +:+ "+++" +:+ nl +:+ nl
  +:+ readme +:+ nl.

(** [filepath.Join]: the non-empty elements separated by slashes (the final
    [Clean] of the joined path is left out). *)
Fixpoint filepath_Join (elem : list string) : string :=
  match elem with
  | [] => EmptyString
  | e :: rest =>
      if String.eqb e EmptyString then filepath_Join rest
      else if String.eqb (filepath_Join rest) EmptyString then e
      else e +:+ "/" +:+ filepath_Join rest
  end.

Record env := {
  githubToken : string;
  hookSecret : bytes;
  dir : string;
  hugoCmd : string;
  hugoConfig : string;
  hugoSource : string;
  hugoOutput : string
}.

(** The inbound [*http.Request]: [Header] holds canonical keys, [Body] is what
    [ioutil.ReadAll(r.Body)] returns. *)
Record Request := {
  Method : string;
  Header : gmap string string;
  Body : bytes + error
}.

(** [r.Header.Get(key)]: the empty string when the header is absent. *)
Definition Header_Get (r : Request) (key : string) : string :=
  default EmptyString (Header r !! key).

Definition StatusOK : nat := 200.
Definition StatusBadRequest : nat := 400.
Definition StatusMethodNotAllowed : nat := 405.
Definition StatusInternalServerError : nat := 500.

(** What the client gets: a status line and body, or nothing because the
    handler goroutine panicked. *)
Inductive outcome :=
| Respond (code : nat) (body : string)
| Panic (msg : string).

Definition result : Type := outcome * list event.

Definition emit (t : list event) (k : result) : result := (fst k, t ++ snd k).

(** The deferred [f.Close()] calls, last opened first. *)
Definition leave (opened : list string) (code : nat) : result :=
  (Respond code EmptyString, map EvClose opened).

Section Handler.
Context {H : Type} `{Hash H}.
Variable new_mac : bytes -> H.
Variable W : World.
Variable e : env.

Definition run_hugo (opened : list string) : result :=
  let args := [ "--config=" +:+ dq +:+ hugoConfig e +:+ dq;
                "--source=" +:+ dq +:+ hugoSource e +:+ dq;
                "--output=" +:+ dq +:+ hugoOutput e +:+ dq ] in
  match exec_CombinedOutput W (hugoCmd e) args with
  | (_, Some err) =>
      emit [EvExec (hugoCmd e) args; EvLog err] (leave opened StatusInternalServerError)
  | (output, None) =>
      emit [EvExec (hugoCmd e) args; EvLog output] (leave opened StatusOK)
  end.

(** [for repo, readme := range readmes], in some order of the mapping. *)
Fixpoint write_readmes (l : list (string * bytes)) (opened : list string) : result :=
  match l with
  | [] => run_hugo opened
  | (repo, readme) :: l' =>
      let path := filepath_Join [hugoSource e; dir e; repo +:+ ".md"] in
      match os_Create W path with
      | Some err =>
          emit [EvCreate path; EvLog err] (leave opened StatusInternalServerError)
      | None =>
          let text := render repo (string_of_bytes readme) (time_Now W) in
          match file_Write W path text with
          | Some err =>
              emit [EvCreate path; EvWrite path text; EvLog err]
                   (leave (path :: opened) StatusInternalServerError)
          | None =>
              emit [EvCreate path; EvWrite path text] (write_readmes l' (path :: opened))
          end
      end
  end.

(** Lines 146-215: what an authenticated request does. *)
Definition dispatch (event : string) (body : bytes) : result :=
  if String.eqb event "ping"
  then (Respond StatusOK "pong", [])
  else
  match json_Unmarshal W body with
  | inr _ => (Respond StatusBadRequest EmptyString, [])
  | inl req =>
  if String.eqb event "sync-all"
  then
    let s := SyncAll.syncAll_state (fun p => pullReadme W p (githubToken e)) (Repos req) in
    (Respond StatusOK EmptyString, SyncAll.trace s)
  else
    let ref := Split "/" (Ref req) in
    if negb (length ref =? 3)%nat
    then (Respond StatusBadRequest EmptyString, [])
    else
    let branch := nth 2 ref EmptyString in
    if negb (String.eqb branch "master")
    then (Respond StatusOK EmptyString, [])
    else
    match pullReadme W (Repository_Name req) (githubToken e) with
    | (_, Some err) =>
        (Respond StatusInternalServerError EmptyString,
         [EvFetch (Repository_Name req); EvLog err])
    | (readme, None) =>
        let readmes : gmap string bytes := {[ Repository_Name req := readme ]} in
        emit [EvFetch (Repository_Name req)] (write_readmes (map_to_list readmes) [])
    end
  end.

(** Lines 119-144: the gates in front of it. *)
Definition ServeHTTP_with (r : Request) : result :=
  if negb (String.eqb (Method r) "POST")
  then (Respond StatusMethodNotAllowed EmptyString, [])
  else
  let event := Header_Get r "X-Github-Event" in
  if negb (String.eqb event "push") && negb (String.eqb event "ping")
  then (Respond StatusBadRequest EmptyString, [])
  else
  match Body r with
  | inr _ => (Respond StatusInternalServerError EmptyString, [])
  | inl body =>
  match slice_from 5 (Header_Get r "X-Hub-Signature") with
  | None => (Panic "slice bounds out of range", [])
  | Some sig =>
  match verifyWebhook_with new_mac (bytes_of_string sig) body (hookSecret e) with
  | (_, Some _) => (Respond StatusInternalServerError EmptyString, [])
  | (false, None) => (Respond StatusBadRequest EmptyString, [])
  | (true, None) => dispatch event body
  end
  end
  end.
End Handler.

(** The handler as deployed: the verifier is HMAC-SHA1. *)
Definition ServeHTTP (W : World) (e : env) (r : Request) : result :=
  ServeHTTP_with hmac_sha1 W e r.

(** What a run did, read off its trace. *)
Definition is_file_event (ev : event) : bool :=
  match ev with
  | EvCreate _ | EvWrite _ _ | EvClose _ => true
  | _ => false
  end.

Definition is_generator_run (ev : event) : bool :=
  match ev with EvExec _ _ => true | _ => false end.

Definition file_events (t : list event) : list event := List.filter is_file_event t.

Definition generator_runs (t : list event) : list event :=
  List.filter is_generator_run t.

Definition is_client_error (o : outcome) : bool :=
  match o with Respond c _ => (400 <=? c)%nat && (c <? 500)%nat | Panic _ => false end.

Definition is_server_error (o : outcome) : bool :=
  match o with Respond c _ => (500 <=? c)%nat && (c <? 600)%nat | Panic _ => false end.

(** ** The sync trigger (client) *)

(** The request [src/syncall/main.go] builds (lines 36-53) from the bytes [b]
    that [json.Marshal(request{Repos: repos})] returned. *)
Definition trigger_request (secret : string) (b : bytes) : Request :=
  {| Method := "POST";
     Header := {[ "X-Hub-Signature"%string :=
                    ("sha1=" +:+ sign (bytes_of_string secret) b)%string;
                  "X-Github-Event"%string := "sync-all"%string ]};
     Body := inl b |}.

(** ** Start-up of the two programs *)

(** The process environment: [os.Getenv] (the empty string for a variable
    that is not set), [os.ExpandEnv] and [os.Args]. *)
Record Process := {
  Getenv : string -> string;
  ExpandEnv : string -> string;
  Args : list string
}.




(** One argument of a [log.Println] call of the trigger. *)
Inductive log_arg :=
| LStr (s : string)
| LStrs (l : list string)
| LBytes (b : bytes).

(** What the trigger calls outside itself: [json.Marshal] of its payload and
    the HTTP exchange with the endpoint. *)
Record TriggerWorld := {
  json_Marshal : list string -> bytes + error;
  client_Do : string -> Request -> http_result
}.

Inductive trigger_end :=
| TExit (code : nat)
| TPanic (err : error)
| TReturn.

(** A run of the trigger: its log lines, the request it handed to the HTTP
    client (if it got that far), and how it ended. *)
Record trigger_run := {
  t_logged : list (list log_arg);
  t_posted : option Request;
  t_end : trigger_end
}.

(** [main] ([src/syncall/main.go], lines 19-64). *)
Definition syncall_main (P : Process) (T : TriggerWorld) : trigger_run :=
  let secret := Getenv P "GITHUB_SECRET" in
  let endpoint := Getenv P "HOOK_URL" in
  if String.eqb secret EmptyString
  then {| t_logged := [[LStr "GITHUB_SECRET must be set to the hook's secret."]];
          t_posted := None; t_end := TExit 1 |}
  else if String.eqb endpoint EmptyString
  then {| t_logged := [[LStr "HOOK_URL must be set to the hook URL to call."]];
          t_posted := None; t_end := TExit 1 |}
  else if (length (Args P) <? 2)%nat
  then {| t_logged := [[LStr "Usage: syncall {repo} {repo} {repo}"]];
          t_posted := None; t_end := TExit 1 |}
  else
  let repos := drop 1 (Args P) in
  let log1 := [LStr "Syncing repos:"; LStrs repos] in
  match json_Marshal T repos with
  | inr err => {| t_logged := [log1]; t_posted := None; t_end := TPanic err |}
  | inl b =>
  let log2 := [LStr (string_of_bytes b)] in
  match hWrite (hmac_sha1 (bytes_of_string secret)) b with
  | (_, Some err) => {| t_logged := [log1; log2]; t_posted := None; t_end := TPanic err |}
  | (h, None) =>
  let mac := Hex.EncodeToString (hSum h) in
  let req :=
    {| Method := "POST";
       Header := {[ "X-Hub-Signature"%string := ("sha1=" +:+ mac)%string;
                    "X-Github-Event"%string := "sync-all"%string ]};
       Body := inl b |} in
  match client_Do T endpoint req with
  | NewRequestFails err =>
      {| t_logged := [log1; log2]; t_posted := None; t_end := TPanic err |}
  | DoFails err =>
      {| t_logged := [log1; log2]; t_posted := Some req; t_end := TPanic err |}
  | ReadAllFails err =>
      {| t_logged := [log1; log2]; t_posted := Some req; t_end := TPanic err |}
  | Response _ status body =>
      {| t_logged := [log1; log2; [LStr (status +:+ nl); LBytes body]];
         t_posted := Some req; t_end := TReturn |}
  end
  end
  end.

(** ** A concrete deployment, for running the model *)

Module Sample.
(** The document source knows every repository but ["b"]. *)
Definition world : World := {|
  http_Do := fun rq =>
    if String.eqb (req_url rq) "https://api.github.com/repos/darlinggo/b/readme"
    then Response 404 "404 Not Found" (bytes_of_string "Not Found")
    else Response 200 "200 OK" (bytes_of_string "hello");
  json_Unmarshal := fun b =>
    if (length b <? 2)%nat then inr "unexpected end of JSON input"%string
    else inl {| Ref := "refs/heads/master"; Repository_Name := "foo";
                Repository_URL := "https://github.com/darlinggo/foo";
                Repos := ["a"; "b"]%string |};
  os_Create := fun _ => None;
  file_Write := fun _ _ => None;
  time_Now := "2016-03-01T12:00:00Z";
  exec_CombinedOutput := fun _ _ => ("built"%string, None)
|}.

Definition environment : env := {|
  githubToken := "token";
  hookSecret := bytes_of_string "s3cret";
  dir := "content/project";
  hugoCmd := "/bin/hugo";
  hugoConfig := "config.toml";
  hugoSource := "/hugoSource";
  hugoOutput := "/public"
|}.

Definition body : bytes := bytes_of_string "{}".

Definition post (event signature : string) (b : bytes + error) : Request :=
  {| Method := "POST";
     Header := {[ "X-Github-Event"%string := event;
                  "X-Hub-Signature"%string := signature ]};
     Body := b |}.

(** What the trigger client sends, and the same under GitHub's events. *)
Definition signed (event : string) : Request :=
  post event ("sha1=" +:+ sign (hookSecret environment) body) (inl body).

(** A push that carries no signature header at all. *)
Definition unsigned_push : Request :=
  {| Method := "POST";
     Header := {[ "X-Github-Event"%string := "push"%string ]};
     Body := inl body |}.

(** A hash whose [Write] fails, to exercise the verifier's error path. *)
#[global] Instance broken_Hash : Hash unit := {
  hWrite := fun _ _ => (tt, Some "write failed"%string);
  hSum := fun _ => [];
  hReset := fun _ => tt;
  hBlockSize := fun _ => 64
}.
End Sample.

(** ** Vocabulary of the properties *)

(** A request that passed every gate of lines 119-144 under the deployed
    verifier. *)
Definition authenticated (e : env) (r : Request) (event : string) (body : bytes) : Prop :=
  Method r = "POST"
  /\ Header_Get r "X-Github-Event" = event
  /\ Body r = inl body
  /\ exists sg, slice_from 5 (Header_Get r "X-Hub-Signature") = Some sg
                /\ verifyWebhook (bytes_of_string sg) body (hookSecret e) = (true, None).

(** Flipping bit [j] of byte [i] of a signature. *)
Definition flip_bit (i : nat) (j : Z) (mac : bytes) : bytes :=
  match mac !! i with
  | Some v => <[i := Z.lxor v (Z.shiftl 1 j)]> mac
  | None => mac
  end.

(** A decoder that rejects every body. *)
Definition no_json (W : World) : World :=
  {| http_Do := http_Do W;
     json_Unmarshal := fun _ => inr "invalid character"%string;
     os_Create := os_Create W;
     file_Write := file_Write W;
     time_Now := time_Now W;
     exec_CombinedOutput := exec_CombinedOutput W |}.

(** [strings.Join(elems, sep)] for a one-character separator. *)
Fixpoint Join (sep : ascii) (elems : list string) : string :=
  match elems with
  | [] => EmptyString
  | [s] => s
  | s :: rest => s +:+ String sep (Join sep rest)
  end.

(** Whether a character occurs in a string. *)
Fixpoint contains (c : ascii) (s : string) : bool :=
  match s with
  | EmptyString => false
  | String c' s' => Ascii.eqb c' c || contains c s'
  end.

(** The characters of [hextable], as bytes. *)
Definition is_lower_hex (v : Z) : bool :=
  ((48 <=? v) && (v <=? 57) || (97 <=? v) && (v <=? 102))%Z.

(** The log lines, the paths created, and the paths closed in a trace. *)
Definition logs (t : list event) : list string :=
  omap (fun ev => match ev with EvLog m => Some m | _ => None end) t.

Definition creates (t : list event) : list string :=
  omap (fun ev => match ev with EvCreate p => Some p | _ => None end) t.


Definition closes (t : list event) : list string :=
  omap (fun ev => match ev with EvClose p => Some p | _ => None end) t.

(** The paths of a list on which [os.Create] succeeds. *)
Definition creatable (W : World) (p : string) : bool :=
  match os_Create W p with None => true | Some _ => false end.

Definition opened_of (W : World) (paths : list string) : list string :=
  List.filter (creatable W) paths.

(** The file a README goes to, what is written there, and the arguments
    of the generator, as lines 185-207 compute them. *)
Definition readme_path (e : env) (repo : string) : string :=
  filepath_Join [hugoSource e; dir e; repo +:+ ".md"].

Definition readme_text (W : World) (repo : string) (readme : bytes) : string :=
  render repo (string_of_bytes readme) (time_Now W).

Definition hugo_args (e : env) : list string :=
  [ "--config=" +:+ dq +:+ hugoConfig e +:+ dq;
    "--source=" +:+ dq +:+ hugoSource e +:+ dq;
    "--output=" +:+ dq +:+ hugoOutput e +:+ dq ].


(** A process environment given by an association list, with an
    [ExpandEnv] that leaves its argument as it is. *)
Definition process_of (vars : list (string * string)) (args : list string) : Process :=
  {| Getenv := fun k => default EmptyString (snd <$> List.find (fun kv => String.eqb (fst kv) k) vars);
     ExpandEnv := fun s => s;
     Args := args |}.

(** * Properties *)

(** ** Test vectors (FIPS 180 and RFC 2202) *)

Example sha1_abc :
  Hex.EncodeToString (hSum (fst (hWrite SHA1.New (bytes_of_string "abc"))))
  = "a9993e364706816aba3e25717850c26c9cd0d89d"%string.
Proof. vm_compute. reflexivity. Qed.

Example sha1_empty :
  Hex.EncodeToString (hSum SHA1.New) = "da39a3ee5e6b4b0d3255bfef95601890afd80709"%string.
Proof. vm_compute. reflexivity. Qed.

Example sha1_two_blocks :
  Hex.EncodeToString (hSum (fst (hWrite SHA1.New (bytes_of_string
     "abcdbcdecdefdefgefghfghighijhijkijkljklmklmnlmnomnopnopq"))))
  = "84983e441c3bd26ebaae4aa1f95129e5e54670f1"%string.
Proof. vm_compute. reflexivity. Qed.

Example hmac_sha1_rfc2202_2 :
  Hex.EncodeToString
    (hSum (fst (hWrite (HMAC.New SHA1.New (bytes_of_string "Jefe"))
                       (bytes_of_string "what do ya want for nothing?"))))
  = "effcdf6ae5eb2fa2d27416d5f184df9c259a7c79"%string.
Proof. vm_compute. reflexivity. Qed.

Example hmac_sha1_rfc2202_1 :
  Hex.EncodeToString
    (hSum (fst (hWrite (HMAC.New SHA1.New (repeat 11%Z 20))
                       (bytes_of_string "Hi There"))))
  = "b617318655057264e28bc0b6fb378c8ef146be00"%string.
Proof. vm_compute. reflexivity. Qed.

(** ** Constant-time comparison *)

Lemma ct_fold_zero (x y : bytes) (v : Z) :
  length x = length y ->
  HMAC.ct_fold v x y = 0%Z <-> v = 0%Z /\ x = y.
Proof.
  revert y v. induction x as [|a x IH]; intros [|b y] v Hlen; simpl in *; try discriminate.
  - split; [intros ->; auto | tauto].
  - injection Hlen as Hlen. rewrite (IH y _ Hlen), Z.lor_eq_0_iff, Z.lxor_eq_0_iff.
    split.
    + intros [[-> ->] ->]. auto.
    + intros [-> [= -> ->]]. auto.
Qed.

Lemma Equal_spec (x y : bytes) : HMAC.Equal x y = true <-> x = y.
Proof.
  unfold HMAC.Equal, HMAC.ConstantTimeCompare.
  destruct (Nat.eqb_spec (length x) (length y)) as [Hlen|Hlen].
  - destruct (Z.eqb_spec (HMAC.ct_fold 0 x y) 0) as [Hz|Hz].
    + split; [|reflexivity]. intros _. by apply (ct_fold_zero x y 0%Z Hlen).
    + split; [discriminate|]. intros ->. destruct Hz.
      by apply (ct_fold_zero y y 0%Z).
  - split; [discriminate|]. intros ->. by destruct Hlen.
Qed.

Lemma Equal_refl (x : bytes) : HMAC.Equal x x = true.
Proof. by apply Equal_spec. Qed.

Lemma Equal_neq (x y : bytes) : x ≠ y -> HMAC.Equal x y = false.
Proof.
  intros Hne. destruct (HMAC.Equal x y) eqn:E; [|done].
  by apply Equal_spec in E.
Qed.

(** ** The verifier *)

Lemma sha1_Write_ok (d : SHA1.digest) (p : bytes) : snd (SHA1.Write d p) = None.
Proof. unfold SHA1.Write. by destruct (SHA1.block _ _ _). Qed.

Lemma hmac_sha1_Write_ok (m : HMAC.hmac) (p : bytes) :
  snd (hWrite (H := HMAC.hmac (H := SHA1.digest)) m p) = None.
Proof.
  simpl. unfold HMAC.Write.
  pose proof (sha1_Write_ok (HMAC.inner m) p) as Hw. simpl.
  by destruct (SHA1.Write (HMAC.inner m) p) as [i' err]; simpl in *; subst.
Qed.

Lemma verifyWebhook_eq (mac body secret : bytes) :
  verifyWebhook mac body secret
  = (HMAC.Equal mac (bytes_of_string (sign secret body)), None).
Proof.
  unfold verifyWebhook, verifyWebhook_with, sign.
  pose proof (hmac_sha1_Write_ok (hmac_sha1 secret) body) as Hw.
  destruct (hWrite (hmac_sha1 secret) body) as [h' err]; simpl in *. by subst.
Qed.

Lemma verifyWebhook_sign (s b : bytes) :
  verifyWebhook (bytes_of_string (sign s b)) b s = (true, None).
Proof. by rewrite verifyWebhook_eq, Equal_refl. Qed.

(** C4: the signature the client computes verifies, and whatever differs
    from it, in one bit or in many, does not. *)
Theorem verify_roundtrip (s b : bytes) :
  verifyWebhook (bytes_of_string (sign s b)) b s = (true, None)
  /\ forall mac : bytes,
       mac ≠ bytes_of_string (sign s b) -> verifyWebhook mac b s = (false, None).
Proof.
  split.
  - apply verifyWebhook_sign.
  - intros mac Hne. by rewrite verifyWebhook_eq, Equal_neq.
Qed.

Lemma flip_bit_neq (i : nat) (j : Z) (mac : bytes) :
  (i < length mac)%nat -> (0 <= j)%Z -> flip_bit i j mac ≠ mac.
Proof.
  intros Hi Hj. unfold flip_bit.
  destruct (mac !! i) as [v|] eqn:E.
  - intros Heq. apply (f_equal (fun l => l !! i)) in Heq.
    rewrite list_lookup_insert_eq, E in Heq by done.
    injection Heq as Heq.
    assert (Hz : Z.lxor (Z.lxor v (Z.shiftl 1 j)) v = 0%Z) by (by apply Z.lxor_eq_0_iff).
    rewrite (Z.lxor_comm v), Z.lxor_assoc, Z.lxor_nilpotent, Z.lxor_0_r in Hz.
    apply (f_equal (fun z => Z.testbit z j)) in Hz.
    rewrite Z.shiftl_spec, Z.sub_diag, Z.bits_0 in Hz by done. discriminate.
  - apply lookup_ge_None in E. lia.
Qed.

Lemma verify_roundtrip_witness :
  verifyWebhook (bytes_of_string (sign (hookSecret Sample.environment) Sample.body))
    Sample.body (hookSecret Sample.environment) = (true, None)
  /\ verifyWebhook
       (flip_bit 0 0 (bytes_of_string (sign (hookSecret Sample.environment) Sample.body)))
       Sample.body (hookSecret Sample.environment) = (false, None).
Proof.
  split.
  - apply (verify_roundtrip (hookSecret Sample.environment) Sample.body).
  - apply (verify_roundtrip (hookSecret Sample.environment) Sample.body).
    vm_compute. discriminate.
Defined.

(** ** The gates of the handler *)

Section HandlerFacts.
Context {H : Type} `{Hash H}.
Variable new_mac : bytes -> H.
Variable W : World.
Variable e : env.

(** A request that gets as far as line 136 is answered by what the verifier
    says. *)
Lemma ServeHTTP_with_gates (r : Request) (body : bytes) (sg : string) :
  Method r = "POST" ->
  Header_Get r "X-Github-Event" = "push" \/ Header_Get r "X-Github-Event" = "ping" ->
  Body r = inl body ->
  slice_from 5 (Header_Get r "X-Hub-Signature") = Some sg ->
  ServeHTTP_with new_mac W e r =
    match verifyWebhook_with new_mac (bytes_of_string sg) body (hookSecret e) with
    | (_, Some _) => (Respond StatusInternalServerError EmptyString, [])
    | (false, None) => (Respond StatusBadRequest EmptyString, [])
    | (true, None) => dispatch W e (Header_Get r "X-Github-Event") body
    end.
Proof.
  intros HM Hev HB Hs. unfold ServeHTTP_with.
  rewrite HM, HB, Hs. simpl.
  by destruct Hev as [-> | ->].
Qed.

(** Line 125 lets only [push] and [ping] through. *)
Lemma ServeHTTP_with_other_event (r : Request) :
  Method r = "POST" ->
  Header_Get r "X-Github-Event" ≠ "push" ->
  Header_Get r "X-Github-Event" ≠ "ping" ->
  ServeHTTP_with new_mac W e r = (Respond StatusBadRequest EmptyString, []).
Proof.
  intros HM Hpush Hping. unfold ServeHTTP_with. rewrite HM. simpl.
  apply String.eqb_neq in Hpush, Hping. by rewrite Hpush, Hping.
Qed.

Lemma ServeHTTP_with_short_signature (r : Request) (body : bytes) :
  Method r = "POST" ->
  Header_Get r "X-Github-Event" = "push" \/ Header_Get r "X-Github-Event" = "ping" ->
  Body r = inl body ->
  (String.length (Header_Get r "X-Hub-Signature") < 5)%nat ->
  ServeHTTP_with new_mac W e r = (Panic "slice bounds out of range", []).
Proof.
  intros HM Hev HB Hlen.
  assert (Hs : slice_from 5 (Header_Get r "X-Hub-Signature") = None).
  { revert Hlen. generalize (Header_Get r "X-Hub-Signature"). intros s.
    do 5 (destruct s as [|? s]; [reflexivity|]). simpl. lia. }
  unfold ServeHTTP_with. rewrite HM, HB, Hs. simpl.
  by destruct Hev as [-> | ->].
Qed.

Lemma fetches_leave (opened : list string) (code : nat) :
  fetches (snd (leave opened code)) = [].
Proof. unfold leave. simpl. induction opened; simpl; auto. Qed.

Lemma fetches_app (t1 t2 : list event) : fetches (t1 ++ t2) = fetches t1 ++ fetches t2.
Proof. unfold fetches. apply omap_app. Qed.

Lemma snd_emit (t : list event) (k : result) : snd (emit t k) = t ++ snd k.
Proof. reflexivity. Qed.

Lemma fst_emit (t : list event) (k : result) : fst (emit t k) = fst k.
Proof. reflexivity. Qed.

Lemma fetches_run_hugo (opened : list string) : fetches (snd (run_hugo W e opened)) = [].
Proof.
  unfold run_hugo. destruct (exec_CombinedOutput _ _ _) as [out [err|]];
    by rewrite snd_emit, fetches_app, fetches_leave.
Qed.

Lemma fetches_write_readmes (l : list (string * bytes)) (opened : list string) :
  fetches (snd (write_readmes W e l opened)) = [].
Proof.
  revert opened. induction l as [|[repo readme] l IH]; intros opened; simpl.
  - apply fetches_run_hugo.
  - destruct (os_Create _ _); [by rewrite snd_emit, fetches_app, fetches_leave|].
    destruct (file_Write _ _ _); rewrite snd_emit, fetches_app.
    + by rewrite fetches_leave.
    + by rewrite IH.
Qed.
End HandlerFacts.

(** ** Authentication outcomes *)

(** C6: a signature that does not match makes the verifier return [false]
    with no error, and it returns an error exactly when writing the payload
    into the digest fails; the handler answers the first with 400 and the
    second with 500, and any 5xx answer to a request that reached the verifier
    comes from an error of the verifier or from what follows a successful
    verification. *)
Theorem mismatch_is_client_error_fault_is_server_error
    {H : Type} `{Hash H} (new_mac : bytes -> H) (W : World) (e : env)
    (r : Request) (body : bytes) (sg : string) :
  Method r = "POST" ->
  Header_Get r "X-Github-Event" = "push" \/ Header_Get r "X-Github-Event" = "ping" ->
  Body r = inl body ->
  slice_from 5 (Header_Get r "X-Hub-Signature") = Some sg ->
  let written := hWrite (new_mac (hookSecret e)) body in
  let expected := bytes_of_string (Hex.EncodeToString (hSum (fst written))) in
  let v := verifyWebhook_with new_mac (bytes_of_string sg) body (hookSecret e) in
  (snd written = None -> bytes_of_string sg ≠ expected -> v = (false, None))
  /\ (forall err, snd v = Some err <-> snd written = Some err)
  /\ (v = (false, None) ->
      ServeHTTP_with new_mac W e r = (Respond StatusBadRequest EmptyString, []))
  /\ (forall err, snd v = Some err ->
      ServeHTTP_with new_mac W e r = (Respond StatusInternalServerError EmptyString, []))
  /\ (is_server_error (fst (ServeHTTP_with new_mac W e r)) = true ->
      (exists err, snd v = Some err) \/ v = (true, None)).
Proof.
  intros HM Hev HB Hs written expected v.
  pose proof (ServeHTTP_with_gates new_mac W e r body sg HM Hev HB Hs) as Hg.
  fold v in Hg.
  assert (Hv : v = match written with
                   | (_, Some err) => (false, Some err)
                   | (h', None) => (HMAC.Equal (bytes_of_string sg) expected, None)
                   end).
  { subst v expected written. unfold verifyWebhook_with.
    by destruct (hWrite (new_mac (hookSecret e)) body) as [h' [err|]]. }
  clearbody v. repeat split.
  - intros Hw Hne. rewrite Hv. subst expected.
    destruct written as [h' [err|]]; simpl in *; [discriminate|].
    by rewrite Equal_neq.
  - rewrite Hv. destruct written as [h' [err'|]]; simpl; congruence.
  - rewrite Hv. destruct written as [h' [err'|]]; simpl; congruence.
  - intros Hf. by rewrite Hg, Hf.
  - intros err Herr. rewrite Hg. by destruct v as [[|] [err'|]].
  - rewrite Hg. destruct v as [[|] [err'|]]; simpl; eauto; discriminate.
Qed.

Lemma mismatch_is_client_error_fault_is_server_error_witness :
  ServeHTTP_with (fun _ => tt) Sample.world Sample.environment (Sample.signed "push")
    = (Respond StatusInternalServerError EmptyString, [])
  /\ ServeHTTP_with hmac_sha1 Sample.world Sample.environment
       (Sample.post "push" "sha1=00000000" (inl Sample.body))
    = (Respond StatusBadRequest EmptyString, []).
Proof.
  split.
  - apply (mismatch_is_client_error_fault_is_server_error (fun _ => tt)
             Sample.world Sample.environment (Sample.signed "push") Sample.body
             (sign (hookSecret Sample.environment) Sample.body))
      with (err := "write failed"%string);
      vm_compute; auto.
  - apply (mismatch_is_client_error_fault_is_server_error hmac_sha1
             Sample.world Sample.environment
             (Sample.post "push" "sha1=00000000" (inl Sample.body)) Sample.body
             "00000000");
      vm_compute; auto.
Defined.

(** C10: the HMAC-SHA1 verifier never returns an error, so a 5xx answer is
    never the verifier's: it comes from reading the body or from a request
    that was authenticated. *)
Theorem verifier_error_unreachable :
  (forall mac body secret : bytes, snd (verifyWebhook mac body secret) = None)
  /\ (forall (W : World) (e : env) (r : Request),
        is_server_error (fst (ServeHTTP W e r)) = true ->
        (exists err, Body r = inr err)
        \/ (exists body sg,
              Body r = inl body
              /\ slice_from 5 (Header_Get r "X-Hub-Signature") = Some sg
              /\ verifyWebhook (bytes_of_string sg) body (hookSecret e) = (true, None))).
Proof.
  split.
  - intros mac body secret. by rewrite verifyWebhook_eq.
  - intros W e r. unfold ServeHTTP, ServeHTTP_with.
    destruct (negb (String.eqb (Method r) "POST")); [discriminate|].
    destruct (negb _ && negb _); [discriminate|].
    destruct (Body r) as [body|err]; [|eauto].
    destruct (slice_from 5 _) as [sg|]; [|discriminate].
    fold (verifyWebhook (bytes_of_string sg) body (hookSecret e)).
    rewrite verifyWebhook_eq.
    destruct (HMAC.Equal _ _) eqn:E; [|discriminate].
    intros _. right. exists body, sg. by rewrite verifyWebhook_eq, E.
Qed.

Lemma verifier_error_unreachable_witness :
  (exists err, Body (Sample.post "push" "sha1=" (inr "unexpected EOF"%string)) = inr err)
  \/ (exists body sg,
        Body (Sample.post "push" "sha1=" (inr "unexpected EOF"%string)) = inl body
        /\ slice_from 5 (Header_Get (Sample.post "push" "sha1=" (inr "unexpected EOF"%string))
                           "X-Hub-Signature") = Some sg
        /\ verifyWebhook (bytes_of_string sg) body (hookSecret Sample.environment)
           = (true, None)).
Proof.
  apply (proj2 verifier_error_unreachable Sample.world Sample.environment).
  vm_compute. reflexivity.
Defined.

(** ** Dispatch of authenticated requests *)

Lemma authenticated_dispatch (W : World) (e : env) (r : Request) (event : string)
    (body : bytes) :
  authenticated e r event body ->
  event = "push" \/ event = "ping" ->
  ServeHTTP W e r = dispatch W e event body.
Proof.
  intros (HM & Hev & HB & sg & Hs & Hv) Hevent. unfold ServeHTTP.
  rewrite (ServeHTTP_with_gates hmac_sha1 W e r body sg HM) by (by rewrite ?Hev).
  fold (verifyWebhook (bytes_of_string sg) body (hookSecret e)).
  by rewrite Hv, Hev.
Qed.

Lemma signed_authenticated (event : string) :
  authenticated Sample.environment (Sample.signed event) event Sample.body.
Proof.
  repeat split.
  exists (sign (hookSecret Sample.environment) Sample.body).
  split; [reflexivity|]. apply verifyWebhook_sign.
Qed.

Lemma ping_dispatch (W : World) (e : env) (r : Request) (body : bytes) :
  authenticated e r "ping" body ->
  ServeHTTP W e r = (Respond StatusOK "pong", []).
Proof.
  intros Hauth. by rewrite (authenticated_dispatch W e r "ping" body) by auto.
Qed.

(** C7: an authenticated ping is answered 200 [pong] and nothing else
    happens: the trace is empty, so there is no fetch, no file event and no
    generator run. *)
Theorem ping_pong (W : World) (e : env) (r : Request) (body : bytes) :
  authenticated e r "ping" body ->
  ServeHTTP W e r = (Respond StatusOK "pong", [])
  /\ fetches (snd (ServeHTTP W e r)) = []
  /\ file_events (snd (ServeHTTP W e r)) = []
  /\ generator_runs (snd (ServeHTTP W e r)) = [].
Proof.
  intros Hauth. rewrite (ping_dispatch W e r body Hauth). auto.
Qed.

Lemma ping_pong_witness :
  ServeHTTP Sample.world Sample.environment (Sample.signed "ping")
  = (Respond StatusOK "pong", []).
Proof.
  apply (ping_pong Sample.world Sample.environment (Sample.signed "ping") Sample.body).
  repeat split.
  exists (sign (hookSecret Sample.environment) Sample.body).
  split; vm_compute; reflexivity.
Defined.

(** C9: the ping path never decodes the body, so an authenticated ping is
    answered [pong] whatever the decoder would say of it, while an
    authenticated push whose body does not decode, and any bulk-sync request,
    gets a client error. *)
Theorem ping_ignores_body_push_and_bulk_need_json
    (W : World) (e : env) (r : Request) (event : string) (body : bytes) :
  authenticated e r event body ->
  (event = "ping" -> ServeHTTP W e r = (Respond StatusOK "pong", []))
  /\ (forall err, json_Unmarshal W body = inr err ->
      event = "push" \/ event = "sync-all" ->
      is_client_error (fst (ServeHTTP W e r)) = true /\ snd (ServeHTTP W e r) = []).
Proof.
  intros Hauth. split.
  - intros ->. by apply (ping_dispatch W e r body).
  - intros err Hjson [-> | ->].
    + rewrite (authenticated_dispatch W e r "push" body) by auto.
      unfold dispatch. simpl. by rewrite Hjson.
    + destruct Hauth as (HM & Hev & _).
      unfold ServeHTTP. rewrite ServeHTTP_with_other_event; auto; by rewrite Hev.
Qed.

Lemma ping_ignores_body_push_and_bulk_need_json_witness :
  ServeHTTP (no_json Sample.world) Sample.environment (Sample.signed "ping")
    = (Respond StatusOK "pong", [])
  /\ is_client_error
       (fst (ServeHTTP (no_json Sample.world) Sample.environment (Sample.signed "push")))
     = true.
Proof.
  split.
  - apply (ping_ignores_body_push_and_bulk_need_json (no_json Sample.world)
             Sample.environment (Sample.signed "ping") "ping" Sample.body);
      [|reflexivity].
    repeat split. exists (sign (hookSecret Sample.environment) Sample.body).
    split; vm_compute; reflexivity.
  - apply (ping_ignores_body_push_and_bulk_need_json (no_json Sample.world)
             Sample.environment (Sample.signed "push") "push" Sample.body)
      with (err := "invalid character"%string); [|reflexivity|left; reflexivity].
    repeat split. exists (sign (hookSecret Sample.environment) Sample.body).
    split; vm_compute; reflexivity.
Defined.

(** C5: an authenticated push whose payload decodes is answered by its
    [ref]: not three segments, 400; three segments and a branch other than
    [master], 200 with an empty trace (no fetch); branch [master], exactly one
    fetch, of the payload's repository name. *)
Theorem push_dispatch (W : World) (e : env) (r : Request) (body : bytes) (req : request) :
  authenticated e r "push" body ->
  json_Unmarshal W body = inl req ->
  let segments := Split "/" (Ref req) in
  (length segments ≠ 3 ->
   ServeHTTP W e r = (Respond StatusBadRequest EmptyString, []))
  /\ (length segments = 3 -> nth 2 segments EmptyString ≠ "master" ->
      ServeHTTP W e r = (Respond StatusOK EmptyString, [])
      /\ fetches (snd (ServeHTTP W e r)) = [])
  /\ (length segments = 3 -> nth 2 segments EmptyString = "master" ->
      fetches (snd (ServeHTTP W e r)) = [Repository_Name req]).
Proof.
  intros Hauth Hjson segments.
  rewrite (authenticated_dispatch W e r "push" body) by auto.
  unfold dispatch. simpl. rewrite Hjson. fold segments.
  split; [|split].
  - intros Hlen. apply Nat.eqb_neq in Hlen. by rewrite Hlen.
  - intros Hlen Hm. apply Nat.eqb_eq in Hlen. apply String.eqb_neq in Hm.
    by rewrite Hlen, Hm.
  - intros Hlen Hm. apply Nat.eqb_eq in Hlen. apply String.eqb_eq in Hm.
    rewrite Hlen, Hm. simpl.
    destruct (pullReadme W (Repository_Name req) (githubToken e)) as [readme [err|]].
    + reflexivity.
    + by rewrite snd_emit, fetches_app, fetches_write_readmes.
Qed.

Lemma push_dispatch_witness :
  fetches (snd (ServeHTTP Sample.world Sample.environment (Sample.signed "push")))
  = ["foo"%string].
Proof.
  apply (push_dispatch Sample.world Sample.environment (Sample.signed "push")
           Sample.body
           {| Ref := "refs/heads/master"; Repository_Name := "foo";
              Repository_URL := "https://github.com/darlinggo/foo";
              Repos := ["a"; "b"]%string |}).
  - repeat split. exists (sign (hookSecret Sample.environment) Sample.body).
    split; vm_compute; reflexivity.
  - reflexivity.
  - reflexivity.
  - reflexivity.
Defined.

(** ** Where the handler departs from its contract *)

(** C1: the request the trigger client sends (event [sync-all], signature
    valid under the shared secret) stops at the event gate of line 125 with
    400 and an empty trace, whatever its body: nothing is fetched and no 200 is
    sent.  The branch of line 160 written for it would have fetched the listed
    repositories and answered 200, as the run on the sample shows. *)
Theorem sync_all_stops_at_event_gate :
  (forall (W : World) (e : env) (secret : string) (b : bytes),
      hookSecret e = bytes_of_string secret ->
      authenticated e (trigger_request secret b) "sync-all" b
      /\ ServeHTTP W e (trigger_request secret b)
         = (Respond StatusBadRequest EmptyString, []))
  /\ ServeHTTP Sample.world Sample.environment (trigger_request "s3cret" Sample.body)
     = (Respond StatusBadRequest EmptyString, [])
  /\ dispatch Sample.world Sample.environment "sync-all" Sample.body
     = (Respond StatusOK EmptyString,
        [EvFetch "a"; EvFetch "b"; EvLog "b: non-200 status: 404 Not Found"]).
Proof.
  split; [|split; vm_compute; reflexivity].
  intros W e secret b Hsecret.
  assert (Hsig : Header_Get (trigger_request secret b) "X-Hub-Signature"
                 = ("sha1=" +:+ sign (bytes_of_string secret) b)%string).
  { unfold Header_Get, trigger_request. cbn [Header]. by rewrite lookup_insert_eq. }
  assert (Hev : Header_Get (trigger_request secret b) "X-Github-Event" = "sync-all").
  { unfold Header_Get, trigger_request. cbn [Header].
    rewrite lookup_insert_ne by done. by rewrite lookup_singleton_eq. }
  split.
  - split; [reflexivity|]. split; [exact Hev|]. split; [reflexivity|].
    exists (sign (bytes_of_string secret) b). rewrite Hsig, Hsecret. split.
    + reflexivity.
    + apply verifyWebhook_sign.
  - unfold ServeHTTP. apply ServeHTTP_with_other_event; [reflexivity| |];
      by rewrite Hev.
Qed.

Lemma sync_all_stops_at_event_gate_witness :
  ServeHTTP Sample.world Sample.environment (trigger_request "s3cret" Sample.body)
  = (Respond StatusBadRequest EmptyString, []).
Proof.
  apply (proj1 sync_all_stops_at_event_gate Sample.world Sample.environment
           "s3cret"%string Sample.body).
  vm_compute. reflexivity.
Defined.

(** The same for every request: no [sync-all] event gets past line 125. *)
Lemma sync_all_always_rejected (W : World) (e : env) (r : Request) :
  Method r = "POST" ->
  Header_Get r "X-Github-Event" = "sync-all" ->
  ServeHTTP W e r = (Respond StatusBadRequest EmptyString, []).
Proof.
  intros HM Hev. unfold ServeHTTP.
  apply ServeHTTP_with_other_event; auto; by rewrite Hev.
Qed.

(** C2: a push without the signature header is not answered with a client
    error: slicing the empty header value at 5 panics. *)
Theorem missing_signature_panics :
  Header_Get Sample.unsigned_push "X-Hub-Signature" = EmptyString
  /\ ServeHTTP Sample.world Sample.environment Sample.unsigned_push
     = (Panic "slice bounds out of range", [])
  /\ is_client_error
       (fst (ServeHTTP Sample.world Sample.environment Sample.unsigned_push)) = false.
Proof. repeat split. Qed.

(** The same for every header value shorter than five characters. *)
Lemma short_signature_panics (W : World) (e : env) (r : Request) (body : bytes) :
  Method r = "POST" ->
  Header_Get r "X-Github-Event" = "push" \/ Header_Get r "X-Github-Event" = "ping" ->
  Body r = inl body ->
  (String.length (Header_Get r "X-Hub-Signature") < 5)%nat ->
  ServeHTTP W e r = (Panic "slice bounds out of range", []).
Proof. apply ServeHTTP_with_short_signature. Qed.

(** And the five characters that are dropped are never looked at: a header
    with another tag in front of the right digest reaches the verifier and is
    accepted. *)
Lemma wrong_prefix_is_accepted :
  ServeHTTP Sample.world Sample.environment
    (Sample.post "ping" ("md5!!" +:+ sign (hookSecret Sample.environment) Sample.body)
       (inl Sample.body))
  = (Respond StatusOK "pong", []).
Proof. vm_compute. reflexivity. Qed.

(** ** The fan-out aggregator under every schedule *)

Section SyncAllFacts.
Import SyncAll.
Variable pull : string -> bytes * option error.

Local Abbreviation inv := (SyncAll.inv pull).

Ltac fields := cbn [pc workers wg closer closed results trace].

(** *** The expected mapping *)

Lemma fetched_lookup (repos : list string) (r : string) :
  fetched pull repos !! r =
    if decide (r ∈ repos)
    then match pull r with (resp, None) => Some resp | (_, Some _) => None end
    else None.
Proof.
  induction repos as [|r0 rest IH].
  - cbn [fetched]. rewrite lookup_empty. case_decide; [set_solver|done].
  - cbn [fetched]. destruct (decide (r = r0)) as [->|Hne].
    + destruct (decide (r0 ∈ r0 :: rest)) as [_|Hn]; [|set_solver].
      destruct (pull r0) as [resp [err|]] eqn:E.
      * rewrite IH. by case_decide.
      * by rewrite lookup_insert_eq.
    + assert (Hiff : r ∈ r0 :: rest <-> r ∈ rest).
      { rewrite elem_of_cons. split; [intros [?|?]; [done|auto] | auto]. }
      destruct (pull r0) as [resp [err|]] eqn:E.
      * rewrite IH. repeat case_decide; tauto.
      * rewrite lookup_insert_ne, IH by done. repeat case_decide; tauto.
Qed.

Lemma fetched_size (repos : list string) :
  NoDup repos ->
  size (fetched pull repos) + length (List.filter (failed pull) repos) = length repos.
Proof.
  induction 1 as [|r rest Hnotin Hnd IH]; simpl; [reflexivity|].
  unfold failed at 1. destruct (pull r) as [resp [err|]] eqn:E; simpl.
  - lia.
  - rewrite map_size_insert_None; [lia|].
    rewrite fetched_lookup. by rewrite decide_False.
Qed.

(** *** Workers *)

Lemma worker_split (ws : list worker) (i : nat) (w0 : worker) :
  ws !! i = Some w0 ->
  exists l1 l2, ws = l1 ++ w0 :: l2 /\ forall w, <[i := w]> ws = l1 ++ w :: l2.
Proof.
  intros Hi. exists (take i ws), (drop (S i) ws). split.
  - by rewrite take_drop_middle.
  - intros w. apply insert_take_drop. by eapply lookup_lt_Some.
Qed.

Lemma live_count_app (l1 l2 : list worker) :
  live_count (l1 ++ l2) = live_count l1 + live_count l2.
Proof. unfold live_count. by rewrite List.filter_app, length_app. Qed.

Lemma starting_app (l1 l2 : list worker) :
  starting (l1 ++ l2) = starting l1 ++ starting l2.
Proof. apply omap_app. Qed.

Lemma live_count_zero (ws : list worker) (w : worker) :
  live_count ws = 0 -> w ∈ ws -> w = WGone.
Proof.
  induction ws as [|w0 ws IH]; intros Hz Hin; [by apply elem_of_nil in Hin|].
  unfold live_count in *. simpl in Hz.
  destruct w0; simpl in Hz; try discriminate.
  apply elem_of_cons in Hin as [->|Hin]; auto.
Qed.

Lemma live_count_pos (ws : list worker) :
  0 < live_count ws -> exists i w, ws !! i = Some w /\ live w = true.
Proof.
  induction ws as [|w0 ws IH]; unfold live_count; simpl; [lia|].
  destruct (live w0) eqn:E.
  - intros _. by exists 0, w0.
  - intros Hpos. destruct (IH Hpos) as (i & w & Hi & Hw). by exists (S i), w.
Qed.

(** *** Every action makes progress towards the end *)

Lemma weight_step (a : action) (s s' : state) :
  step pull a s = Some s' -> weight s' < weight s.
Proof.
  destruct s as [p ws n c cl res tr]. destruct a as [|i|]; simpl.
  - unfold step_main, weight; simpl. destruct p as [[|r rest]| |]; simpl.
    + intros [= <-]. simpl. destruct c; lia.
    + intros [= <-]. simpl. rewrite sum_list_with_app. simpl. lia.
    + destruct cl; intros [= <-]. simpl. lia.
    + discriminate.
  - unfold step_worker, set_worker, weight; simpl.
    destruct (ws !! i) as [w0|] eqn:Hi; [|discriminate].
    destruct (worker_split ws i w0 Hi) as (l1 & l2 & -> & Hins).
    destruct w0 as [r|r resp| |].
    + destruct (pull r) as [resp [err|]]; intros [= <-]; simpl;
        rewrite Hins, !sum_list_with_app; simpl; lia.
    + destruct p; try discriminate. destruct cl; [discriminate|].
      intros [= <-]; simpl. rewrite Hins, !sum_list_with_app; simpl; lia.
    + intros [= <-]; simpl. rewrite Hins, !sum_list_with_app; simpl; lia.
    + discriminate.
  - unfold step_closer, weight; simpl. destruct c; try discriminate.
    + destruct (n =? 0)%nat; [|discriminate]. intros [= <-]. simpl. lia.
    + intros [= <-]. simpl. lia.
Qed.

Lemma weight_run (sched : list action) (s s' : state) :
  run pull sched s = Some s' -> length sched + weight s' <= weight s.
Proof.
  revert s. induction sched as [|a sched IH]; intros s; simpl.
  - intros [= <-]. lia.
  - destruct (step pull a s) as [s1|] eqn:E; [|discriminate].
    intros Hrun. apply IH in Hrun. apply weight_step in E. lia.
Qed.

Lemma weight_init (repos : list string) : weight (init repos) = 4 * length repos + 4.
Proof. unfold weight, init. simpl. lia. Qed.

(** *** The invariant of the reachable states *)

Lemma inv_init (repos : list string) : inv repos (init repos).
Proof.
  split; unfold todo, unspawned; simpl.
  - reflexivity.
  - reflexivity.
  - split; [eauto | done].
  - split; discriminate.
  - intros [|]; discriminate.
  - discriminate.
  - intros r resp Hin. by rewrite lookup_empty in Hin.
  - intros r resp Hin. by apply elem_of_nil in Hin.
  - intros r resp Hin _. right; left. by rewrite app_nil_r.
  - by rewrite app_nil_r.
Qed.

Lemma inv_step_main (repos : list string) (s s' : state) :
  inv repos s -> step_main s = Some s' -> inv repos s'.
Proof.
  destruct s as [p ws n c cl res tr]. intros [Hwg Hsp Hc Hcl Hj Hret Hso Hse Hco Hf].
  unfold step_main, todo, unspawned in *. simpl in *.
  destruct p as [[|r rest]| |]; simpl in *.
  - (* the loop is over: start the closer *)
    intros [= <-]. assert (c = CNone) as -> by (apply Hc; eauto).
    split; unfold todo, unspawned; simpl.
    + done.
    + done.
    + split; [discriminate | intros [? [=]]].
    + rewrite Hcl. split; discriminate.
    + intros [|]; discriminate.
    + discriminate.
    + done.
    + done.
    + done.
    + done.
  - (* one more worker *)
    intros [= <-]. assert (c = CNone) as -> by (apply Hc; eauto).
    split; unfold todo, unspawned; simpl.
    + rewrite live_count_app. unfold live_count at 2. simpl. lia.
    + rewrite length_app. simpl. lia.
    + split; eauto.
    + done.
    + intros [|]; discriminate.
    + discriminate.
    + done.
    + intros r' resp Hin. apply elem_of_app in Hin as [Hin|Hin]; [eauto|].
      apply list_elem_of_singleton in Hin. discriminate.
    + intros r' resp Hin Hp. rewrite starting_app. simpl.
      destruct (Hco r' resp Hin Hp) as [?|[Ht|Hs]]; auto.
      * right; left. rewrite elem_of_cons, elem_of_app in Ht.
        rewrite !elem_of_app, list_elem_of_singleton.
        destruct Ht as [->|[?|?]]; auto.
      * right; right. rewrite elem_of_app. auto.
    + rewrite <- Hf, starting_app. simpl.
      apply Permutation_app_head. rewrite (Permutation_app_comm (starting ws)).
      simpl. by rewrite Permutation_middle.
  - (* the range loop ends on the closed channel *)
    destruct cl; [|discriminate]. intros [= <-].
    split; unfold todo, unspawned; simpl.
    + done.
    + done.
    + split; [intros Hn; apply Hc in Hn as [? [=]] | intros [? [=]]].
    + done.
    + done.
    + done.
    + done.
    + done.
    + done.
    + done.
  - discriminate.
Qed.

Lemma live_count_cons (w : worker) (l : list worker) :
  live_count (w :: l) = (if live w then 1 else 0) + live_count l.
Proof. unfold live_count. simpl. by destruct (live w). Qed.

Lemma fetch_moves (F U S1 S2 : list string) (r : string) :
  (F ++ [r]) ++ U ++ S1 ++ S2 ≡ₚ F ++ U ++ S1 ++ r :: S2.
Proof.
  rewrite <- app_assoc. apply Permutation_app_head. simpl.
  rewrite !(app_assoc U). apply Permutation_middle.
Qed.

Lemma starting_cons (w : worker) (l : list worker) :
  starting (w :: l) = match w with WStart r => [r] | _ => [] end ++ starting l.
Proof. by destruct w. Qed.

Lemma inv_step_worker (repos : list string) (i : nat) (s s' : state) :
  inv repos s -> step_worker pull i s = Some s' -> inv repos s'.
Proof.
  destruct s as [p ws n c cl res tr]. intros [Hwg Hsp Hc Hcl Hj Hret Hso Hse Hco Hf].
  unfold step_worker, set_worker, todo, unspawned in *. revert Hwg Hsp Hc Hcl Hj Hret Hso Hse Hco Hf.
  fields. intros Hwg Hsp Hc Hcl Hj Hret Hso Hse Hco Hf.
  destruct (ws !! i) as [w0|] eqn:Hi; [|discriminate].
  destruct (worker_split ws i w0 Hi) as (l1 & l2 & -> & Hins). clear Hi.
  rewrite starting_app, starting_cons in Hco, Hf.
  rewrite live_count_app, live_count_cons in Hwg.
  rewrite length_app in Hsp. cbn [length] in Hsp.
  assert (Hsend : forall w r' resp',
            w = WExit \/ w = WGone ->
            WSend r' resp' ∈ l1 ++ w :: l2 -> r' ∈ repos /\ pull r' = (resp', None)).
  { intros w r' resp' Hw Hin. apply Hse.
    rewrite elem_of_app, elem_of_cons in *.
    destruct Hin as [?|[<-|?]]; auto. destruct Hw; discriminate. }
  destruct w0 as [r|r resp| |]; cbn [app] in Hco, Hf.
  - (* the fetch *)
    assert (Hr : r ∈ repos).
    { rewrite <- Hf. rewrite !elem_of_app, elem_of_cons. auto. }
    destruct (pull r) as [resp [err|]] eqn:Hp; intros [= <-]; rewrite ?Hins.
    + split; unfold todo, unspawned; fields.
      * by rewrite live_count_app, live_count_cons.
      * rewrite length_app. cbn [length] in *. lia.
      * done.
      * done.
      * done.
      * done.
      * done.
      * intros r' resp'. apply Hsend. auto.
      * intros r' resp' Hin Hp'. rewrite starting_app, starting_cons; cbn [app].
        destruct (Hco r' resp' Hin Hp') as [?|[Ht|Hs]]; auto.
        -- right; left. rewrite !elem_of_app, elem_of_cons in Ht.
           rewrite !elem_of_app. destruct Ht as [?|[?|[->|?]]]; auto.
           congruence.
        -- right; right. rewrite elem_of_app, elem_of_cons in *.
           destruct Hs as [?|[[=]|?]]; auto.
      * rewrite <- Hf, fetches_app, starting_app, starting_cons; cbn [app].
        apply fetch_moves.
    + split; unfold todo, unspawned; fields.
      * by rewrite live_count_app, live_count_cons.
      * rewrite length_app. cbn [length] in *. lia.
      * done.
      * done.
      * done.
      * done.
      * done.
      * intros r' resp' Hin.
        rewrite elem_of_app, elem_of_cons in Hin. destruct Hin as [?|[[= -> ->]|?]].
        -- apply Hse. rewrite elem_of_app. auto.
        -- auto.
        -- apply Hse. rewrite elem_of_app, elem_of_cons. auto.
      * intros r' resp' Hin Hp'. rewrite starting_app, starting_cons; cbn [app].
        destruct (Hco r' resp' Hin Hp') as [?|[Ht|Hs]]; auto.
        -- rewrite !elem_of_app, elem_of_cons in Ht.
           destruct Ht as [?|[?|[->|?]]].
           ++ right; left. rewrite !elem_of_app. auto.
           ++ right; left. rewrite !elem_of_app. auto.
           ++ right; right. rewrite elem_of_app, elem_of_cons.
              right; left. congruence.
           ++ right; left. rewrite !elem_of_app. auto.
        -- right; right. rewrite elem_of_app, elem_of_cons in *.
           destruct Hs as [?|[[=]|?]]; auto.
      * rewrite <- Hf, fetches_app, starting_app, starting_cons; cbn [app].
        apply fetch_moves.
  - (* the send meets the receive *)
    destruct p; try discriminate. destruct cl; [discriminate|]. intros [= <-]; rewrite ?Hins.
    assert (Hthis : r ∈ repos /\ pull r = (resp, None)).
    { apply Hse. rewrite elem_of_app, elem_of_cons. auto. }
    split; unfold todo, unspawned; fields.
    + by rewrite live_count_app, live_count_cons.
    + rewrite length_app. cbn [length] in *. lia.
    + done.
    + done.
    + done.
    + done.
    + intros r' resp'. destruct (decide (r = r')) as [<-|Hne].
      * rewrite lookup_insert_eq. by intros [= <-]; rewrite ?Hins.
      * rewrite lookup_insert_ne by done. apply Hso.
    + intros r' resp'. apply Hsend. auto.
    + intros r' resp' Hin Hp'. rewrite starting_app, starting_cons; cbn [app].
      destruct (decide (r = r')) as [<-|Hne].
      * left. rewrite lookup_insert_eq. destruct Hthis. congruence.
      * rewrite lookup_insert_ne by done.
        destruct (Hco r' resp' Hin Hp') as [?|[Ht|Hs]]; auto.
        right; right. rewrite elem_of_app, elem_of_cons in *.
        destruct Hs as [?|[[=]|?]]; auto. congruence.
    + by rewrite starting_app, starting_cons; cbn [app].
  - (* the deferred Done *)
    intros [= <-]; rewrite ?Hins. split; unfold todo, unspawned; fields.
    + rewrite live_count_app, live_count_cons. cbn [live] in *. lia.
    + rewrite length_app. cbn [length] in *. lia.
    + done.
    + done.
    + intros Hcc. by rewrite (Hj Hcc).
    + done.
    + done.
    + intros r' resp'. apply Hsend. auto.
    + intros r' resp' Hin Hp'. rewrite starting_app, starting_cons; cbn [app].
      destruct (Hco r' resp' Hin Hp') as [?|[Ht|Hs]]; auto.
      right; right. rewrite elem_of_app, elem_of_cons in *.
      destruct Hs as [?|[[=]|?]]; auto.
    + by rewrite starting_app, starting_cons; cbn [app].
  - discriminate.
Qed.

Lemma inv_step_closer (repos : list string) (s s' : state) :
  inv repos s -> step_closer s = Some s' -> inv repos s'.
Proof.
  destruct s as [p ws n c cl res tr]. intros [Hwg Hsp Hc Hcl Hj Hret Hso Hse Hco Hf].
  unfold step_closer, todo, unspawned in *. simpl in *.
  destruct c; try discriminate.
  - destruct (Nat.eqb_spec n 0) as [->|]; [|discriminate]. intros [= <-].
    split; unfold todo, unspawned; simpl; try done.
    + split; [discriminate|]. intros Hp. apply Hc in Hp. discriminate.
    + rewrite Hcl. split; discriminate.
  - intros [= <-]. split; unfold todo, unspawned; simpl; try done.
    + split; [discriminate|]. intros Hp. apply Hc in Hp. discriminate.
    + intros _. apply Hj. auto.
Qed.

Lemma inv_step (repos : list string) (a : action) (s s' : state) :
  inv repos s -> step pull a s = Some s' -> inv repos s'.
Proof.
  destruct a; simpl; eauto using inv_step_main, inv_step_worker, inv_step_closer.
Qed.

Lemma inv_run (repos : list string) (sched : list action) (s s' : state) :
  inv repos s -> run pull sched s = Some s' -> inv repos s'.
Proof.
  revert s. induction sched as [|a sched IH]; intros s Hinv; simpl.
  - by intros [= <-].
  - destruct (step pull a s) as [s1|] eqn:E; [|discriminate].
    apply IH. by eapply inv_step.
Qed.

(** *** No deadlock, and the first-able scheduler reaches the return *)

Lemma returned_pc (s : state) : returned s = true <-> pc s = MReturned.
Proof. unfold returned. destruct (pc s); split; congruence. Qed.

Lemma progress (repos : list string) (s : state) :
  inv repos s -> returned s = false ->
  exists a s', a ∈ candidates s /\ step pull a s = Some s'.
Proof.
  destruct s as [p ws n c cl res tr]. intros [Hwg _ Hc Hcl _ _ _ _ _ _].
  unfold returned, candidates. simpl in *. intros Hret.
  destruct p as [rest| |]; [| |discriminate].
  - exists AMain. unfold step_main. simpl.
    destruct rest; eexists; (split; [apply list_elem_of_here | reflexivity]).
  - destruct cl.
    { exists AMain. eexists. split; [apply list_elem_of_here | reflexivity]. }
    destruct c.
    + destruct (proj1 Hc eq_refl) as [rest [=]].
    + destruct (Nat.eqb_spec n 0) as [->|Hn].
      * exists ACloser. eexists. split;
          [apply list_elem_of_further, list_elem_of_here | reflexivity].
      * destruct (live_count_pos ws) as (i & w & Hi & Hw); [lia|].
        exists (AWorker i). simpl. unfold step_worker. simpl. rewrite Hi.
        assert (Hcand : AWorker i ∈ AMain :: ACloser :: map AWorker (seq 0 (length ws))).
        { do 2 apply list_elem_of_further. apply list_elem_of_fmap.
          exists i. split; [done|]. apply elem_of_seq.
          apply lookup_lt_Some in Hi. lia. }
        destruct w as [r|r resp| |]; [| | |discriminate].
        -- destruct (pull r) as [resp [err|]]; eauto.
        -- eauto.
        -- eauto.
    + exists ACloser. eexists. split;
        [apply list_elem_of_further, list_elem_of_here | reflexivity].
    + discriminate (proj2 Hcl eq_refl).
Qed.

Lemma first_step_some (l : list action) (s : state) (a : action) (s1 : state) :
  a ∈ l -> step pull a s = Some s1 ->
  exists a' s', first_step pull l s = Some s' /\ step pull a' s = Some s'.
Proof.
  induction l as [|a0 l IH]; intros Hin Hstep; [by apply elem_of_nil in Hin|].
  cbn [first_step]. destruct (step pull a0 s) as [s0|] eqn:E; [eauto|].
  apply elem_of_cons in Hin as [->|Hin]; [congruence|]. auto.
Qed.

Lemma drive_returns (repos : list string) (fuel : nat) (s : state) :
  inv repos s -> weight s <= fuel ->
  returned (drive pull fuel s) = true
  /\ exists sched, run pull sched s = Some (drive pull fuel s).
Proof.
  revert s. induction fuel as [|fuel IH]; intros s Hinv Hw.
  - simpl. split; [|by exists []].
    unfold weight, returned in *. destruct (pc s); [lia|lia|done].
  - cbn [drive]. destruct (returned s) eqn:Hret.
    + destruct (first_step pull (candidates s) s) as [s'|] eqn:E.
      * exfalso. apply returned_pc in Hret.
        assert (Hnone : forall a, step pull a s = None).
        { destruct Hinv as [Hwg _ _ Hcl Hj Hr _ _ _ _].
          destruct s as [p ws n c cl res tr]. simpl in *. subst p.
          assert (c = CGone) as -> by (by apply Hcl, Hr).
          assert (Hz : live_count ws = 0) by (rewrite <- Hwg; auto).
          intros [|i|]; simpl; try done.
          unfold step_worker. simpl. destruct (ws !! i) as [w|] eqn:Hi; [|done].
          apply list_elem_of_lookup_2 in Hi.
          by rewrite (live_count_zero ws w Hz Hi). }
        clear -E Hnone. induction (candidates s) as [|a l IHl]; simpl in E; [done|].
        rewrite Hnone in E. auto.
      * split; [done | by exists []].
    + destruct (progress repos s Hinv Hret) as (a & s1 & Hin & Hstep).
      destruct (first_step_some _ _ _ _ Hin Hstep) as (a' & s' & -> & Hstep').
      destruct (IH s') as [Hr [sched Hrun]].
      * by eapply inv_step.
      * apply weight_step in Hstep'. lia.
      * split; [done|]. exists (a' :: sched). simpl. by rewrite Hstep'.
Qed.

(** *** What a returned state holds *)

Lemma returned_results (repos : list string) (s : state) :
  inv repos s -> returned s = true ->
  results s = fetched pull repos /\ fetches (trace s) ≡ₚ repos.
Proof.
  intros [Hwg _ _ Hcl Hj Hr Hso Hse Hco Hf] Hret. apply returned_pc in Hret.
  assert (Hz : live_count (workers s) = 0).
  { rewrite <- Hwg. apply Hj. right. by apply Hcl, Hr. }
  assert (Hgone : forall w, w ∈ workers s -> w = WGone)
    by (intros w; by apply live_count_zero).
  assert (Htodo : todo s = []).
  { unfold todo, unspawned. rewrite Hret. simpl.
    clear -Hgone. induction (workers s) as [|w ws IH]; [done|].
    rewrite starting_cons, IH, (Hgone w) by set_solver. done. }
  rewrite Htodo, app_nil_r in Hf. split; [|done].
  apply map_eq. intros r. rewrite fetched_lookup.
  destruct (results s !! r) as [resp|] eqn:E.
  - destruct (Hso r resp E) as [Hin Hp]. rewrite decide_True, Hp; done.
  - case_decide as Hin; [|done].
    destruct (pull r) as [resp [err|]] eqn:Hp; [done|].
    destruct (Hco r resp Hin Hp) as [?|[Ht|Hs]]; [congruence| |].
    + rewrite Htodo in Ht. by apply elem_of_nil in Ht.
    + apply Hgone in Hs. discriminate.
Qed.

Lemma syncAll_state_returned (repos : list string) :
  returned (syncAll_state pull repos) = true
  /\ inv repos (syncAll_state pull repos).
Proof.
  unfold syncAll_state.
  destruct (drive_returns repos (weight (init repos)) (init repos))
    as [Hr [sched Hrun]]; [apply inv_init | lia |].
  split; [done|]. eapply inv_run; [apply inv_init | exact Hrun].
Qed.

Lemma syncAll_state_results (repos : list string) :
  results (syncAll_state pull repos) = fetched pull repos.
Proof.
  destruct (syncAll_state_returned repos) as [Hr Hinv].
  by apply (returned_results repos).
Qed.
End SyncAllFacts.

(** C3: for distinct names of which [K] fail to fetch, [syncAll] returns,
    and the mapping it returns has exactly [N - K] entries: every name that
    was fetched maps to its bytes, and no failed name is a key.  The call has
    no error result to return, and no schedule of the goroutines can change
    any of this: every schedule is finite, none gets stuck before the return,
    every name is fetched once, and the returned mapping is the same. *)
Theorem syncAll_partial_failure (W : World) (token : string) (repos : list string) :
  NoDup repos ->
  let pull := fun r => pullReadme W r token in
  let K := length (List.filter (SyncAll.failed pull) repos) in
  SyncAll.returned (SyncAll.syncAll_state pull repos) = true
  /\ size (syncAll W repos token) = length repos - K
  /\ (forall r resp, r ∈ repos -> pull r = (resp, None) ->
      syncAll W repos token !! r = Some resp)
  /\ (forall r, SyncAll.failed pull r = true -> syncAll W repos token !! r = None)
  /\ (forall sched s,
        SyncAll.run pull sched (SyncAll.init repos) = Some s ->
        length sched <= 4 * length repos + 4
        /\ (SyncAll.returned s = false -> exists a s', SyncAll.step pull a s = Some s')
        /\ (SyncAll.returned s = true ->
            SyncAll.results s = syncAll W repos token
            /\ fetches (SyncAll.trace s) ≡ₚ repos)).
Proof.
  intros Hnd pull K. unfold syncAll. fold pull.
  rewrite (syncAll_state_results pull repos).
  split; [apply syncAll_state_returned|].
  split; [pose proof (fetched_size pull repos Hnd); subst K; lia|].
  split; [|split].
  - intros r resp Hin Hp. rewrite fetched_lookup, decide_True by done. by rewrite Hp.
  - intros r Hfail. rewrite fetched_lookup. unfold SyncAll.failed in Hfail.
    case_decide; [|done]. by destruct (pull r) as [resp [err|]].
  - intros sched s Hrun.
    assert (Hinv : SyncAll.inv pull repos s) by (eapply inv_run; [apply inv_init | exact Hrun]).
    split; [|split].
    + apply weight_run in Hrun. rewrite weight_init in Hrun. lia.
    + intros Hret. destruct (progress pull repos s Hinv Hret) as (a & s' & _ & Hs).
      eauto.
    + intros Hret. by apply returned_results.
Qed.

Lemma syncAll_partial_failure_witness :
  size (syncAll Sample.world ["a"; "b"; "c"]%string "token") = 2
  /\ syncAll Sample.world ["a"; "b"; "c"]%string "token" !! "b"%string = None.
Proof.
  destruct (syncAll_partial_failure Sample.world "token" ["a"; "b"; "c"]%string)
    as (_ & Hsize & _ & Hfail & _).
  - apply (bool_decide_unpack _). vm_compute. exact I.
  - split.
    + exact Hsize.
    + apply Hfail. vm_compute. reflexivity.
Defined.

(** C8: on the empty list [syncAll] returns the empty mapping.  No worker
    is started, so the closer passes [wg.Wait()] at once and closes the
    channel, and the range loop ends without receiving; under every schedule
    the run has at most four actions, starts no worker, stores nothing, and
    is never blocked before the return. *)
Theorem syncAll_empty (W : World) (token : string) :
  let pull := fun r => pullReadme W r token in
  let final := {| SyncAll.pc := SyncAll.MReturned; SyncAll.workers := [];
                  SyncAll.wg := 0; SyncAll.closer := SyncAll.CGone;
                  SyncAll.closed := true; SyncAll.results := ∅;
                  SyncAll.trace := [] |} in
  syncAll W [] token = ∅
  /\ SyncAll.syncAll_state pull [] = final
  /\ SyncAll.run pull [SyncAll.AMain; SyncAll.ACloser; SyncAll.ACloser; SyncAll.AMain]
       (SyncAll.init []) = Some final
  /\ (forall sched s,
        SyncAll.run pull sched (SyncAll.init []) = Some s ->
        length sched <= 4
        /\ SyncAll.workers s = []
        /\ SyncAll.results s = ∅
        /\ (SyncAll.returned s = false -> exists a s', SyncAll.step pull a s = Some s')).
Proof.
  intros pull final. split; [reflexivity|]. split; [reflexivity|].
  split; [reflexivity|].
  intros sched s Hrun.
  assert (Hinv : SyncAll.inv pull [] s) by (eapply inv_run; [apply inv_init | exact Hrun]).
  split; [|split; [|split]].
  - apply weight_run in Hrun. rewrite weight_init in Hrun. simpl in Hrun. lia.
  - pose proof (SyncAll.inv_spawned _ _ _ Hinv) as Hlen. simpl in Hlen.
    destruct (SyncAll.workers s); [done | simpl in Hlen; lia].
  - apply map_empty. intros r. destruct (SyncAll.results s !! r) as [resp|] eqn:E; [|done].
    destruct (SyncAll.inv_sound _ _ _ Hinv r resp E) as [Hin _]. by apply elem_of_nil in Hin.
  - intros Hret. destruct (progress pull [] s Hinv Hret) as (a & s' & _ & Hs). eauto.
Qed.

Lemma syncAll_empty_witness :
  exists a s',
    SyncAll.step (fun r => pullReadme Sample.world r "token") a
      {| SyncAll.pc := SyncAll.MRange; SyncAll.workers := [];
         SyncAll.wg := 0; SyncAll.closer := SyncAll.CClose;
         SyncAll.closed := false; SyncAll.results := ∅;
         SyncAll.trace := [] |} = Some s'.
Proof.
  apply (syncAll_empty Sample.world "token") with (sched := [SyncAll.AMain; SyncAll.ACloser]).
  - reflexivity.
  - reflexivity.
Defined.

(** * Further properties of the code *)

(** ** The document fetcher *)



(** ** The handler, request by request *)

Lemma slice_from_None (n : nat) (s : string) :
  slice_from n s = None <-> (String.length s < n)%nat.
Proof.
  revert s. induction n as [|n IH]; intros s.
  - simpl. split; [discriminate | lia].
  - destruct s as [|c s]; simpl.
    + split; [lia | done].
    + rewrite IH. lia.
Qed.

Lemma slice_from_Some (n : nat) (s t : string) :
  slice_from n s = Some t -> String.length s = (n + String.length t)%nat.
Proof.
  revert s. induction n as [|n IH]; intros s.
  - simpl. by intros [= ->].
  - destruct s as [|c s]; simpl; [discriminate|]. intros Hs. by rewrite (IH s Hs).
Qed.

Section Outcomes.
Variable W : World.
Variable e : env.

Lemma run_hugo_responds (opened : list string) :
  exists code, fst (run_hugo W e opened) = Respond code EmptyString
               /\ (code = StatusOK \/ code = StatusInternalServerError).
Proof.
  unfold run_hugo. destruct (exec_CombinedOutput _ _ _) as [out [err|]]; simpl; eauto.
Qed.

Lemma write_readmes_responds (l : list (string * bytes)) (opened : list string) :
  exists code, fst (write_readmes W e l opened) = Respond code EmptyString
               /\ (code = StatusOK \/ code = StatusInternalServerError).
Proof.
  revert opened. induction l as [|[repo readme] l IH]; intros opened; simpl.
  - apply run_hugo_responds.
  - destruct (os_Create _ _); [simpl; eauto|].
    destruct (file_Write _ _ _); [simpl; eauto|]. rewrite fst_emit. apply IH.
Qed.

(** After the event gate the event is [push] or [ping]; the answers of
    [dispatch] on those. *)
Lemma dispatch_responds (event : string) (body : bytes) :
  event = "push" \/ event = "ping" ->
  exists code b,
    fst (dispatch W e event body) = Respond code b
    /\ (code = StatusOK \/ code = StatusBadRequest \/ code = StatusInternalServerError)
    /\ (b = EmptyString
        \/ b = "pong" /\ code = StatusOK /\ event = "ping"
           /\ snd (dispatch W e event body) = []).
Proof.
  intros [-> | ->]; unfold dispatch; simpl.
  - destruct (json_Unmarshal W body) as [req|err]; [|eauto 10].
    destruct (negb _); [eauto 10|]. destruct (negb _); [eauto 10|].
    destruct (pullReadme _ _ _) as [readme [err|]]; [simpl; eauto 10|].
    rewrite fst_emit.
    destruct (write_readmes_responds (map_to_list {[Repository_Name req := readme]}) [])
      as (code & -> & [-> | ->]); eauto 10.
  - exists StatusOK, "pong"%string. eauto 10.
Qed.
End Outcomes.

(** The gates of [ServeHTTP], as a decision table. *)
Lemma ServeHTTP_cases (W : World) (e : env) (r : Request) :
  let event := Header_Get r "X-Github-Event" in
  let signature := Header_Get r "X-Hub-Signature" in
  (Method r ≠ "POST"
   /\ ServeHTTP W e r = (Respond StatusMethodNotAllowed EmptyString, []))
  \/ (Method r = "POST" /\ event ≠ "push" /\ event ≠ "ping"
      /\ ServeHTTP W e r = (Respond StatusBadRequest EmptyString, []))
  \/ (Method r = "POST" /\ (event = "push" \/ event = "ping")
      /\ (exists err, Body r = inr err)
      /\ ServeHTTP W e r = (Respond StatusInternalServerError EmptyString, []))
  \/ (Method r = "POST" /\ (event = "push" \/ event = "ping")
      /\ (exists body, Body r = inl body)
      /\ (String.length signature < 5)%nat
      /\ ServeHTTP W e r = (Panic "slice bounds out of range", []))
  \/ (Method r = "POST" /\ (event = "push" \/ event = "ping")
      /\ (exists body sg, Body r = inl body /\ slice_from 5 signature = Some sg
            /\ verifyWebhook (bytes_of_string sg) body (hookSecret e) = (false, None))
      /\ ServeHTTP W e r = (Respond StatusBadRequest EmptyString, []))
  \/ (exists body, (event = "push" \/ event = "ping")
        /\ authenticated e r event body
        /\ ServeHTTP W e r = dispatch W e event body).
Proof.
  intros event signature.
  destruct (String.eqb_spec (Method r) "POST") as [HM|HM].
  2:{ left. split; [done|]. unfold ServeHTTP, ServeHTTP_with.
      apply String.eqb_neq in HM. by rewrite HM. }
  right.
  destruct (String.eqb_spec event "push") as [Hpush|Hpush];
    [|destruct (String.eqb_spec event "ping") as [Hping|Hping]].
  3:{ left. repeat split; try done. by apply ServeHTTP_with_other_event. }
  all: right; assert (Hev : event = "push" \/ event = "ping") by auto.
  all: destruct (Body r) as [body|err] eqn:HB.
  2,4: left; repeat split; eauto;
       unfold ServeHTTP, ServeHTTP_with; fold event; rewrite HM, HB;
       by destruct Hev as [-> | ->].
  all: right.
  all: destruct (slice_from 5 signature) as [sg|] eqn:Hs.
  2,4: left; apply slice_from_None in Hs; repeat split; eauto;
       by apply (ServeHTTP_with_short_signature hmac_sha1 W e r body).
  all: right.
  all: pose proof (ServeHTTP_with_gates hmac_sha1 W e r body sg HM Hev HB Hs) as Hg.
  all: fold (verifyWebhook (bytes_of_string sg) body (hookSecret e)) in Hg.
  all: fold (ServeHTTP W e r) in Hg.
  all: pose proof (verifyWebhook_eq (bytes_of_string sg) body (hookSecret e)) as Hv.
  all: rewrite Hv in Hg.
  all: destruct (HMAC.Equal _ _) eqn:E.
  1,3: right; exists body; split; [done|]; split; [|done];
       repeat split; eauto; exists sg; by rewrite Hv, E.
  all: left; repeat split; eauto; exists body, sg; by rewrite Hv, E.
Qed.

(** X2: the handler panics exactly on a POST with event [push] or [ping]
    and a readable body whose signature header has fewer than five
    characters; every other request is answered. *)
Theorem handler_panics_iff (W : World) (e : env) (r : Request) :
  (exists msg, fst (ServeHTTP W e r) = Panic msg)
  <-> Method r = "POST"
      /\ (Header_Get r "X-Github-Event" = "push" \/ Header_Get r "X-Github-Event" = "ping")
      /\ (exists body, Body r = inl body)
      /\ (String.length (Header_Get r "X-Hub-Signature") < 5)%nat.
Proof.
  split.
  - intros [msg Hp].
    destruct (ServeHTTP_cases W e r)
      as [[_ Hr]|[(_ & _ & _ & Hr)|[(_ & _ & _ & Hr)|[(HM & Hev & HB & Hlen & Hr)|
          [(_ & _ & _ & Hr)|(body & Hev & _ & Hr)]]]]];
      rewrite Hr in Hp; try discriminate; [done|].
    destruct (dispatch_responds W e _ body Hev) as (code & b & Hd & _).
    rewrite Hd in Hp. discriminate.
  - intros (HM & Hev & [body HB] & Hlen). exists "slice bounds out of range"%string.
    unfold ServeHTTP.
    by rewrite (ServeHTTP_with_short_signature hmac_sha1 W e r body).
Qed.

Lemma handler_panics_iff_witness :
  exists msg,
    fst (ServeHTTP Sample.world Sample.environment
           (Sample.post "ping" "sha1" (inl Sample.body))) = Panic msg.
Proof.
  apply (handler_panics_iff Sample.world Sample.environment
           (Sample.post "ping" "sha1" (inl Sample.body))).
  split; [reflexivity|]. split; [right; reflexivity|].
  split; [exists Sample.body; reflexivity|]. vm_compute. lia.
Defined.

(** X3: whatever the request and whatever the fetch, the file system and
    the generator do, an answer carries one of the four statuses 200, 400,
    405, 500, and its body is empty unless the request is an authenticated
    ping, whose body is [pong]: no error text and no fetched content reaches
    the caller. *)
Theorem handler_answers (W : World) (e : env) (r : Request) (code : nat) (b : string) :
  fst (ServeHTTP W e r) = Respond code b ->
  (code = StatusOK \/ code = StatusBadRequest \/ code = StatusMethodNotAllowed
   \/ code = StatusInternalServerError)
  /\ (b = EmptyString
      \/ b = "pong" /\ code = StatusOK /\ snd (ServeHTTP W e r) = []
         /\ exists body, authenticated e r "ping" body).
Proof.
  intros Hans.
  destruct (ServeHTTP_cases W e r)
    as [[_ Hr]|[(_ & _ & _ & Hr)|[(_ & _ & _ & Hr)|[(_ & _ & _ & _ & Hr)|
        [(_ & _ & _ & Hr)|(body & Hev & Hauth & Hr)]]]]];
    rewrite Hr in Hans |- *; try (injection Hans as <- <-; auto 10); try discriminate.
  destruct (dispatch_responds W e _ body Hev) as (code' & b' & Hd & Hcode & Hb).
  rewrite Hd in Hans. injection Hans as <- <-. split; [tauto|].
  destruct Hb as [->|(-> & -> & Hping & Htr)]; [auto|].
  right. repeat split; auto. exists body. by rewrite <- Hping.
Qed.

Lemma handler_answers_witness :
  (200 = StatusOK \/ 200 = StatusBadRequest \/ 200 = StatusMethodNotAllowed
   \/ 200 = StatusInternalServerError)
  /\ ("pong"%string = EmptyString
      \/ "pong"%string = "pong"%string /\ 200 = StatusOK
         /\ snd (ServeHTTP Sample.world Sample.environment (Sample.signed "ping")) = []
         /\ exists body, authenticated Sample.environment (Sample.signed "ping") "ping" body).
Proof.
  apply (handler_answers Sample.world Sample.environment (Sample.signed "ping")).
  vm_compute. reflexivity.
Defined.



(** ** The write stage *)

Lemma omap_events_closes {A} (f : event -> option A) (opened : list string) :
  (forall p, f (EvClose p) = None) -> omap f (map EvClose opened) = [].
Proof. intros Hf. induction opened as [|p l IH]; simpl; [done|]. by rewrite Hf. Qed.

Lemma closes_closes (opened : list string) : closes (map EvClose opened) = opened.
Proof. induction opened as [|p l IH]; simpl; [done|]. by rewrite IH. Qed.

Lemma closes_app (t1 t2 : list event) : closes (t1 ++ t2) = closes t1 ++ closes t2.
Proof. apply omap_app. Qed.

Lemma creates_app (t1 t2 : list event) : creates (t1 ++ t2) = creates t1 ++ creates t2.
Proof. apply omap_app. Qed.



Section WriteStage.
Variable W : World.
Variable e : env.

Lemma run_hugo_eq (opened : list string) :
  run_hugo W e opened =
    match exec_CombinedOutput W (hugoCmd e) (hugo_args e) with
    | (_, Some err) =>
        (Respond StatusInternalServerError EmptyString,
         [EvExec (hugoCmd e) (hugo_args e); EvLog err] ++ map EvClose opened)
    | (output, None) =>
        (Respond StatusOK EmptyString,
         [EvExec (hugoCmd e) (hugo_args e); EvLog output] ++ map EvClose opened)
    end.
Proof.
  unfold run_hugo. fold (hugo_args e).
  by destruct (exec_CombinedOutput W (hugoCmd e) (hugo_args e)) as [out [err|]].
Qed.

Lemma write_readmes_cons (repo : string) (readme : bytes) (l : list (string * bytes))
    (opened : list string) :
  write_readmes W e ((repo, readme) :: l) opened =
    let path := readme_path e repo in
    let text := readme_text W repo readme in
    match os_Create W path with
    | Some err =>
        (Respond StatusInternalServerError EmptyString,
         [EvCreate path; EvLog err] ++ map EvClose opened)
    | None =>
        match file_Write W path text with
        | Some err =>
            (Respond StatusInternalServerError EmptyString,
             [EvCreate path; EvWrite path text; EvLog err] ++ map EvClose (path :: opened))
        | None =>
            emit [EvCreate path; EvWrite path text] (write_readmes W e l (path :: opened))
        end
    end.
Proof.
  cbn [write_readmes]. fold (readme_path e repo). fold (readme_text W repo readme).
  cbn zeta. destruct (os_Create W (readme_path e repo)); [reflexivity|].
  by destruct (file_Write W _ _).
Qed.

Lemma opened_of_cons (p : string) (l : list string) :
  opened_of W (p :: l) = if creatable W p then p :: opened_of W l else opened_of W l.
Proof. reflexivity. Qed.

Lemma creates_closes (opened : list string) : creates (map EvClose opened) = [].
Proof. by apply omap_events_closes. Qed.

(** X5: in the loop that writes the READMEs, every file that [os.Create]
    opened is closed when the handler returns, once, the last opened first,
    whether the loop ran to its end or stopped at a failure, and nothing else
    is closed. *)
Theorem opened_files_are_closed (l : list (string * bytes)) (opened : list string) :
  let t := snd (write_readmes W e l opened) in
  closes t = rev (opened_of W (creates t)) ++ opened.
Proof.
  revert opened. induction l as [|[repo readme] l IH]; intros opened; cbn zeta.
  - cbn [write_readmes]. rewrite run_hugo_eq.
    destruct (exec_CombinedOutput _ _ _) as [out [err|]]; cbn [snd];
      by rewrite closes_app, creates_app, closes_closes, creates_closes.
  - rewrite write_readmes_cons. cbn zeta.
    assert (Hc : creatable W (readme_path e repo)
                 = match os_Create W (readme_path e repo) with
                   | None => true | Some _ => false end) by reflexivity.
    destruct (os_Create W (readme_path e repo)) as [err|].
    + cbn [snd]. rewrite closes_app, creates_app, closes_closes, creates_closes.
      change (creates [EvCreate (readme_path e repo); EvLog err])
        with [readme_path e repo].
      cbn [app]. by rewrite opened_of_cons, Hc.
    + destruct (file_Write W _ _) as [err|].
      * cbn [snd]. rewrite closes_app, creates_app, closes_closes, creates_closes.
        change (creates [EvCreate (readme_path e repo);
                         EvWrite (readme_path e repo) (readme_text W repo readme);
                         EvLog err])
          with [readme_path e repo].
        cbn [app]. by rewrite opened_of_cons, Hc.
      * rewrite snd_emit, closes_app, creates_app, IH.
        change (creates [EvCreate (readme_path e repo);
                         EvWrite (readme_path e repo) (readme_text W repo readme)])
          with [readme_path e repo].
        cbn [app]. rewrite opened_of_cons, Hc. cbn [rev].
        by rewrite <- app_assoc.
Qed.



End WriteStage.


(** ** Pushes to the release branch *)

Lemma dispatch_push (W : World) (e : env) (body : bytes) :
  dispatch W e "push" body =
    match json_Unmarshal W body with
    | inr _ => (Respond StatusBadRequest EmptyString, [])
    | inl req =>
        let ref := Split "/" (Ref req) in
        if negb (length ref =? 3)%nat
        then (Respond StatusBadRequest EmptyString, [])
        else if negb (String.eqb (nth 2 ref EmptyString) "master")
        then (Respond StatusOK EmptyString, [])
        else
          match pullReadme W (Repository_Name req) (githubToken e) with
          | (_, Some err) =>
              (Respond StatusInternalServerError EmptyString,
               [EvFetch (Repository_Name req); EvLog err])
          | (readme, None) =>
              emit [EvFetch (Repository_Name req)]
                   (write_readmes W e [(Repository_Name req, readme)] [])
          end
    end.
Proof.
  unfold dispatch. simpl. destruct (json_Unmarshal W body) as [req|err]; [|done].
  destruct (negb _); [done|]. destruct (negb _); [done|].
  destruct (pullReadme _ _ _) as [readme [err|]]; [done|].
  by rewrite map_to_list_singleton.
Qed.

(** X7: nothing happens for a request that is not an authenticated push
    to the release branch: if a run of the handler has any effect at all,
    the request was a POST with event [push], a readable body, a signature
    that verifies, a payload that decodes and a three-segment [ref] ending in
    [master], and the first effect is the fetch of the payload's repository. *)
Theorem effects_need_authenticated_master_push (W : World) (e : env) (r : Request) :
  snd (ServeHTTP W e r) ≠ [] ->
  exists body req,
    authenticated e r "push" body
    /\ json_Unmarshal W body = inl req
    /\ length (Split "/" (Ref req)) = 3
    /\ nth 2 (Split "/" (Ref req)) EmptyString = "master"
    /\ exists t, snd (ServeHTTP W e r) = EvFetch (Repository_Name req) :: t.
Proof.
  intros Hne.
  destruct (ServeHTTP_cases W e r)
    as [[_ Hr]|[(_ & _ & _ & Hr)|[(_ & _ & _ & Hr)|[(_ & _ & _ & _ & Hr)|
        [(_ & _ & _ & Hr)|(body & Hev & Hauth & Hr)]]]]];
    rewrite Hr in Hne |- *; try done.
  destruct Hev as [Hev|Hev]; rewrite Hev in *; [|done].
  rewrite dispatch_push in Hne |- *.
  exists body. destruct (json_Unmarshal W body) as [req|err]; [|done].
  exists req. cbn zeta in *.
  destruct (Nat.eqb_spec (length (Split "/" (Ref req))) 3) as [Hlen|Hlen];
    cbn [negb] in *; [|done].
  destruct (String.eqb_spec (nth 2 (Split "/" (Ref req)) EmptyString) "master")
    as [Hm|Hm]; cbn [negb] in *; [|done].
  split; [exact Hauth|]. do 3 (split; [done|]).
  destruct (pullReadme _ _ _) as [readme [err|]]; [eauto|].
  rewrite snd_emit. eauto.
Qed.

Lemma effects_need_authenticated_master_push_witness :
  exists body req,
    authenticated Sample.environment (Sample.signed "push") "push" body
    /\ json_Unmarshal Sample.world body = inl req
    /\ length (Split "/" (Ref req)) = 3
    /\ nth 2 (Split "/" (Ref req)) EmptyString = "master"
    /\ exists t, snd (ServeHTTP Sample.world Sample.environment (Sample.signed "push"))
                 = EvFetch (Repository_Name req) :: t.
Proof.
  apply (effects_need_authenticated_master_push Sample.world Sample.environment).
  vm_compute. discriminate.
Defined.



(** ** Parsing the [ref] *)

Lemma Split_nonempty (sep : ascii) (s : string) : Split sep s ≠ [].
Proof.
  destruct s as [|c s]; simpl; [done|].
  destruct (Ascii.eqb c sep); [done|]. by destruct (Split sep s).
Qed.

Lemma Split_free (sep : ascii) (s : string) :
  contains sep s = false -> Split sep s = [s].
Proof.
  induction s as [|c s IH]; simpl; [done|].
  intros [Hc Hs]%orb_false_iff. rewrite Hc, (IH Hs). done.
Qed.

Lemma Split_app (sep : ascii) (x rest : string) :
  contains sep x = false ->
  Split sep (x +:+ String sep rest) = x :: Split sep rest.
Proof.
  induction x as [|c x IH]; simpl.
  - intros _. by rewrite Ascii.eqb_refl.
  - intros [Hc Hx]%orb_false_iff. by rewrite Hc, (IH Hx).
Qed.

Lemma Join_cons (sep : ascii) (x : string) (l : list string) :
  l ≠ [] -> Join sep (x :: l) = x +:+ String sep (Join sep l).
Proof. by destruct l. Qed.

Lemma Join_Split (sep : ascii) (s : string) :
  Forall (fun x => contains sep x = false) (Split sep s)
  /\ Join sep (Split sep s) = s.
Proof.
  induction s as [|c s [IHf IHj]]; simpl.
  - split; [by repeat constructor | done].
  - destruct (Ascii.eqb c sep) eqn:Hc.
    + apply Ascii.eqb_eq in Hc as ->. split; [by constructor|].
      rewrite Join_cons by apply Split_nonempty. by rewrite IHj.
    + pose proof (Split_nonempty sep s) as Hne.
      destruct (Split sep s) as [|hd tl]; [done|].
      apply Forall_cons in IHf as [Hhd Htl]. split.
      * constructor; [|done]. simpl. by rewrite Hc, Hhd.
      * rewrite <- IHj. by destruct tl.
Qed.

Lemma Split_Join (sep : ascii) (l : list string) :
  l ≠ [] -> Forall (fun x => contains sep x = false) l ->
  Split sep (Join sep l) = l.
Proof.
  intros Hne Hfree. induction Hfree as [|x l Hx Hl IH]; [done|].
  destruct l as [|y l].
  - simpl. by apply Split_free.
  - rewrite Join_cons by done. rewrite Split_app by done. by rewrite IH.
Qed.

(** X9: [Split] and [Join] at a one-character separator are inverse to
    each other: a string always splits into at least one segment, no segment
    holds the separator, joining the segments gives the string back, and a
    non-empty list of separator-free segments is what its join splits into. *)
Theorem Split_Join_inverse (sep : ascii) :
  (forall s, Split sep s ≠ []
             /\ Forall (fun x => contains sep x = false) (Split sep s)
             /\ Join sep (Split sep s) = s)
  /\ (forall l, l ≠ [] -> Forall (fun x => contains sep x = false) l ->
                Split sep (Join sep l) = l).
Proof.
  split.
  - intros s. split; [apply Split_nonempty | apply Join_Split].
  - apply Split_Join.
Qed.

Lemma Split_Join_inverse_witness :
  Split "/" (Join "/" ["refs"; "heads"; "master"]%string)
  = ["refs"; "heads"; "master"]%string.
Proof.
  apply (Split_Join_inverse "/").
  - discriminate.
  - repeat constructor.
Defined.

(** X10: an authenticated push whose payload decodes leads to a fetch
    exactly when its [ref] has the form [x/y/master] with no slash in [x] and
    [y], whatever [x] and [y] are: a tag named master is fetched as the branch
    is, and a [ref] with a fourth segment is not. *)
Theorem push_fetches_iff_ref (W : World) (e : env) (r : Request) (body : bytes)
    (req : request) :
  authenticated e r "push" body ->
  json_Unmarshal W body = inl req ->
  fetches (snd (ServeHTTP W e r)) ≠ []
  <-> exists x y, contains "/" x = false /\ contains "/" y = false
                  /\ Ref req = x +:+ "/" +:+ y +:+ "/master".
Proof.
  intros Hauth Hjson.
  rewrite (authenticated_dispatch W e r "push" body) by auto.
  rewrite dispatch_push, Hjson. cbn zeta.
  split.
  - intros Hne.
    destruct (Nat.eqb_spec (length (Split "/" (Ref req))) 3) as [Hlen|Hlen];
      cbn [negb] in Hne; [|done].
    destruct (String.eqb_spec (nth 2 (Split "/" (Ref req)) EmptyString) "master")
      as [Hm|Hm]; cbn [negb] in Hne; [|done].
    destruct (Join_Split "/" (Ref req)) as (Hfree & Hj).
    destruct (Split "/" (Ref req)) as [|x [|y [|z [|]]]]; try discriminate.
    simpl in Hm. subst z. exists x, y.
    apply Forall_cons in Hfree as [Hx Hrest]. apply Forall_cons in Hrest as [Hy _].
    by rewrite <- Hj.
  - intros (x & y & Hx & Hy & ->).
    assert (Hs : Split "/" (x +:+ "/" +:+ y +:+ "/master") = [x; y; "master"%string]).
    { apply (Split_Join "/" [x; y; "master"%string]); [done|]. by repeat constructor. }
    rewrite Hs. simpl.
    destruct (pullReadme _ _ _) as [readme [err|]]; [done|].
    by rewrite snd_emit.
Qed.

Lemma push_fetches_iff_ref_witness :
  exists x y, contains "/" x = false /\ contains "/" y = false
              /\ "refs/heads/master"%string = x +:+ "/" +:+ y +:+ "/master".
Proof.
  apply (push_fetches_iff_ref Sample.world Sample.environment (Sample.signed "push")
           Sample.body
           {| Ref := "refs/heads/master"; Repository_Name := "foo";
              Repository_URL := "https://github.com/darlinggo/foo";
              Repos := ["a"; "b"]%string |}).
  - repeat split. exists (sign (hookSecret Sample.environment) Sample.body).
    split; vm_compute; reflexivity.
  - reflexivity.
  - vm_compute. discriminate.
Defined.

(** ** More on the fan-out aggregator *)

Section SyncAllMore.
Import SyncAll.
Variable W : World.
Variable token : string.

Local Abbreviation pull := (fun r => pullReadme W r token).


(** The log lines of a trace are the errors of the fetches of that trace. *)
Lemma logs_follow_fetches (repos : list string) (sched : list action) (s : state) :
  run pull sched (init repos) = Some s ->
  logs (trace s) = omap (fun r => snd (pull r)) (fetches (trace s)).
Proof.
  assert (Hstep : forall a s1 s2,
            step pull a s1 = Some s2 ->
            logs (trace s1) = omap (fun r => snd (pull r)) (fetches (trace s1)) ->
            logs (trace s2) = omap (fun r => snd (pull r)) (fetches (trace s2))).
  { intros a [p ws n c cl res tr] s2. destruct a as [|i|]; simpl.
    - unfold step_main. simpl. destruct p as [[|r rest]| |]; try discriminate.
      + by intros [= <-].
      + by intros [= <-].
      + destruct cl; [|discriminate]. by intros [= <-].
    - unfold step_worker. simpl. destruct (ws !! i) as [[r|r resp| |]|]; try discriminate.
      + destruct (pull r) as [resp [err|]] eqn:Hp; intros [= <-] IH; simpl;
          unfold logs, fetches in *; rewrite !omap_app, IH; simpl; rewrite Hp; simpl;
          by rewrite ?app_nil_r.
      + destruct p; try discriminate. destruct cl; [discriminate|]. by intros [= <-].
      + by intros [= <-].
    - unfold step_closer. simpl. destruct c; try discriminate.
      + destruct (n =? 0)%nat; [|discriminate]. by intros [= <-].
      + by intros [= <-]. }
  assert (Hgen : forall sched' s1 s2,
            run pull sched' s1 = Some s2 ->
            logs (trace s1) = omap (fun r => snd (pull r)) (fetches (trace s1)) ->
            logs (trace s2) = omap (fun r => snd (pull r)) (fetches (trace s2))).
  { induction sched' as [|a sched' IH]; intros s1 s2; simpl.
    - by intros [= <-].
    - destruct (step pull a s1) as [s1'|] eqn:E; [|discriminate]. eauto. }
  intros Hrun. by apply (Hgen sched (init repos) s).
Qed.

(** X12: when [syncAll] returns, its log holds one line for every
    listed name whose fetch failed, the error [pullReadme] returned for it,
    and no other line, under every schedule. *)
Theorem every_failure_is_logged_once (repos : list string) (sched : list action)
    (s : state) :
  run pull sched (init repos) = Some s ->
  returned s = true ->
  logs (trace s) ≡ₚ omap (fun r => snd (pull r)) repos.
Proof.
  intros Hrun Hret. rewrite (logs_follow_fetches repos sched s Hrun).
  assert (Hinv : inv pull repos s) by (eapply inv_run; [apply inv_init | exact Hrun]).
  destruct (returned_results pull repos s Hinv Hret) as [_ Hf].
  by rewrite Hf.
Qed.

Lemma live_count_elem (ws : list worker) (w : worker) :
  w ∈ ws -> live w = true -> 0 < live_count ws.
Proof.
  induction ws as [|w0 ws IH]; intros Hin Hl; [by apply elem_of_nil in Hin|].
  rewrite live_count_cons. apply elem_of_cons in Hin as [<-|Hin].
  - rewrite Hl. lia.
  - specialize (IH Hin Hl). lia.
Qed.

(** X13: the goroutines keep the rules of the channel and of the
    [WaitGroup] in every state a schedule can reach: [wg.Add] is never called
    once the closer may be waiting; a worker about to call [wg.Done] finds the
    counter positive; once the channel is closed no worker is left, so none can
    send on it; and when [syncAll] has returned every goroutine it started has
    ended. *)
Theorem goroutine_discipline (repos : list string) (sched : list action) (s : state) :
  run pull sched (init repos) = Some s ->
  (closer s ≠ CNone -> forall rest, pc s ≠ MLoop rest)
  /\ (WExit ∈ workers s -> 0 < wg s)
  /\ (closed s = true -> forall w, w ∈ workers s -> w = WGone)
  /\ (returned s = true ->
      closer s = CGone /\ length (workers s) = length repos
      /\ forall w, w ∈ workers s -> w = WGone).
Proof.
  intros Hrun.
  assert (Hinv : inv pull repos s) by (eapply inv_run; [apply inv_init | exact Hrun]).
  destruct Hinv as [Hwg Hsp Hc Hcl Hj Hr _ _ _ _].
  assert (Hclosed : closed s = true -> forall w, w ∈ workers s -> w = WGone).
  { intros Hclo w Hin. apply (live_count_zero (workers s)); [|done].
    rewrite <- Hwg. apply Hj. right. by apply Hcl. }
  split; [|split; [|split]].
  - intros Hne rest Hpc. apply Hne, Hc. eauto.
  - intros Hin. rewrite Hwg. by apply (live_count_elem _ WExit).
  - exact Hclosed.
  - intros Hret. apply returned_pc in Hret. split; [by apply Hcl, Hr|]. split.
    + unfold unspawned in Hsp. rewrite Hret in Hsp. simpl in Hsp. lia.
    + apply Hclosed. auto.
Qed.
End SyncAllMore.


Lemma every_failure_is_logged_once_witness :
  logs (SyncAll.trace (SyncAll.syncAll_state (fun r => pullReadme Sample.world r "token")
                         ["a"; "b"]%string))
  ≡ₚ ["b: non-200 status: 404 Not Found"%string].
Proof.
  apply (every_failure_is_logged_once Sample.world "token" ["a"; "b"]%string
           [SyncAll.AMain; SyncAll.AMain; SyncAll.AMain;
            SyncAll.AWorker 0; SyncAll.AWorker 0; SyncAll.AWorker 0;
            SyncAll.AWorker 1; SyncAll.AWorker 1;
            SyncAll.ACloser; SyncAll.ACloser; SyncAll.AMain]).
  - vm_compute. reflexivity.
  - vm_compute. reflexivity.
Defined.

Lemma goroutine_discipline_witness :
  0 < SyncAll.wg
        {| SyncAll.pc := SyncAll.MRange;
           SyncAll.workers := [SyncAll.WExit];
           SyncAll.wg := 1; SyncAll.closer := SyncAll.CWait;
           SyncAll.closed := false; SyncAll.results := ∅;
           SyncAll.trace := [EvFetch "b"; EvLog "b: non-200 status: 404 Not Found"] |}.
Proof.
  apply (goroutine_discipline Sample.world "token" ["b"%string]
           [SyncAll.AMain; SyncAll.AMain; SyncAll.AWorker 0]).
  - vm_compute. reflexivity.
  - vm_compute. apply list_elem_of_here.
Defined.

(** ** The shape of a signature *)

Lemma be_bytes_length (n : nat) (v : Z) : length (SHA1.be_bytes n v) = n.
Proof. unfold SHA1.be_bytes. by rewrite length_map, length_rev, length_seq. Qed.

Lemma be_bytes_range (n : nat) (v : Z) :
  Forall (fun b => (0 <= b < 256)%Z) (SHA1.be_bytes n v).
Proof.
  unfold SHA1.be_bytes. apply Forall_forall. intros b Hin.
  apply list_elem_of_fmap in Hin as (i & -> & _).
  change 255%Z with (Z.ones 8). rewrite Z.land_ones by lia.
  apply Z.mod_pos_bound. lia.
Qed.

Lemma sha1_Sum_shape (d : SHA1.digest) :
  length (SHA1.Sum d) = 20 /\ Forall (fun b => (0 <= b < 256)%Z) (SHA1.Sum d).
Proof.
  unfold SHA1.Sum, SHA1.checkSum.
  destruct (SHA1.Write d _) as [d1 ?]. destruct (SHA1.Write d1 _) as [d2 ?].
  destruct (SHA1.h d2) as [[[[h0 h1] h2] h3] h4]. split.
  - by rewrite !length_app, !be_bytes_length.
  - repeat (apply Forall_app; split); apply be_bytes_range.
Qed.

Lemma hex_length (src : bytes) :
  String.length (Hex.EncodeToString src) = 2 * length src.
Proof. induction src as [|v src IH]; simpl; [done|]. rewrite IH. lia. Qed.

Lemma hextable_lower_hex (n : Z) :
  (0 <= n < 16)%Z -> is_lower_hex (byte_of_ascii (Hex.hextable n)) = true.
Proof.
  intros Hn.
  assert (Hcases : n ∈ [0; 1; 2; 3; 4; 5; 6; 7; 8; 9; 10; 11; 12; 13; 14; 15]%Z).
  { rewrite !elem_of_cons. lia. }
  rewrite !elem_of_cons in Hcases.
  repeat (destruct Hcases as [->|Hcases]; [reflexivity|]).
  by apply elem_of_nil in Hcases.
Qed.

Lemma hex_lower_hex (src : bytes) :
  Forall (fun b => (0 <= b < 256)%Z) src ->
  Forall (fun v => is_lower_hex v = true) (bytes_of_string (Hex.EncodeToString src)).
Proof.
  induction 1 as [|v src Hv _ IH]; simpl; [constructor|].
  constructor; [|constructor; [|done]]; apply hextable_lower_hex.
  - rewrite Z.shiftr_div_pow2 by lia. change (2 ^ 4)%Z with 16%Z.
    split; [apply Z.div_pos; lia | apply Z.div_lt_upper_bound; lia].
  - change 15%Z with (Z.ones 4). rewrite Z.land_ones by lia.
    apply Z.mod_pos_bound. lia.
Qed.

Lemma bytes_of_string_length (s : string) :
  length (bytes_of_string s) = String.length s.
Proof. induction s as [|c s IH]; simpl; [done|]. by rewrite IH. Qed.

Lemma sign_shape (secret b : bytes) :
  String.length (sign secret b) = 40
  /\ Forall (fun v => is_lower_hex v = true) (bytes_of_string (sign secret b)).
Proof.
  assert (Hd : exists d, sign secret b = Hex.EncodeToString (SHA1.Sum d))
    by (eexists; reflexivity).
  destruct Hd as [d ->]. destruct (sha1_Sum_shape d) as [Hlen Hrange]. split.
  - by rewrite hex_length, Hlen.
  - by apply hex_lower_hex.
Qed.

(** X14: a signature is always forty characters, each one of
    [0123456789abcdef]: the hex form of a twenty-byte digest, in lower case. *)
Theorem sign_format (secret b : bytes) :
  String.length (sign secret b) = 40
  /\ Forall (fun v => is_lower_hex v = true) (bytes_of_string (sign secret b)).
Proof. apply sign_shape. Qed.

(** X15: the handler authenticates a request only if its signature
    header has exactly 45 characters, the last forty of them lower-case hex
    digits: a header of any other length, or a digest written in upper case,
    is never accepted. *)
Theorem authenticated_signature_shape (e : env) (r : Request) (event : string)
    (body : bytes) :
  authenticated e r event body ->
  String.length (Header_Get r "X-Hub-Signature") = 45
  /\ exists sg, slice_from 5 (Header_Get r "X-Hub-Signature") = Some sg
                /\ bytes_of_string sg = bytes_of_string (sign (hookSecret e) body)
                /\ Forall (fun v => is_lower_hex v = true) (bytes_of_string sg).
Proof.
  intros (_ & _ & _ & sg & Hs & Hv).
  rewrite verifyWebhook_eq in Hv. injection Hv as Hv. apply Equal_spec in Hv.
  destruct (sign_shape (hookSecret e) body) as [Hlen Hhex].
  split.
  - rewrite (slice_from_Some _ _ _ Hs), <- bytes_of_string_length, Hv.
    by rewrite bytes_of_string_length, Hlen.
  - exists sg. rewrite Hv. auto.
Qed.

Lemma authenticated_signature_shape_witness :
  String.length (Header_Get (Sample.signed "ping") "X-Hub-Signature") = 45.
Proof.
  apply (authenticated_signature_shape Sample.environment (Sample.signed "ping")
           "ping" Sample.body).
  repeat split. exists (sign (hookSecret Sample.environment) Sample.body).
  split; vm_compute; reflexivity.
Defined.

(** ** Start-up *)

Lemma bytes_of_string_nil (s : string) : bytes_of_string s = [] <-> s = EmptyString.
Proof. destruct s; simpl; split; congruence. Qed.



Lemma trigger_request_authenticated (e : env) (secret : string) (b : bytes) :
  hookSecret e = bytes_of_string secret ->
  authenticated e (trigger_request secret b) "sync-all" b.
Proof.
  intros Hsecret. split; [reflexivity|]. split.
  - unfold Header_Get, trigger_request. cbn [Header].
    rewrite lookup_insert_ne by done. by rewrite lookup_singleton_eq.
  - split; [reflexivity|]. exists (sign (bytes_of_string secret) b). split.
    + unfold Header_Get, trigger_request. cbn [Header]. by rewrite lookup_insert_eq.
    + rewrite Hsecret. apply verifyWebhook_sign.
Qed.

(** X17: the trigger hands a request to the HTTP client only when the
    secret and the endpoint are set and at least one repository is named, and
    what it hands over is then the POST with event [sync-all] whose signature
    the server's verifier accepts under the same secret; when one of the three
    is missing it exits with status 1 and has posted nothing. *)
Theorem syncall_main_posts_signed (P : Process) (T : TriggerWorld) :
  let secret := Getenv P "GITHUB_SECRET" in
  let run := syncall_main P T in
  (forall req, t_posted run = Some req ->
     secret ≠ EmptyString /\ Getenv P "HOOK_URL" ≠ EmptyString
     /\ 2 <= length (Args P)
     /\ exists b, json_Marshal T (drop 1 (Args P)) = inl b
                  /\ req = trigger_request secret b
                  /\ forall e, hookSecret e = bytes_of_string secret ->
                               authenticated e req "sync-all" b)
  /\ (forall code, t_end run = TExit code ->
        code = 1 /\ t_posted run = None
        /\ (secret = EmptyString \/ Getenv P "HOOK_URL" = EmptyString
            \/ length (Args P) < 2))
  /\ (secret = EmptyString \/ Getenv P "HOOK_URL" = EmptyString \/ length (Args P) < 2 ->
      t_end run = TExit 1 /\ t_posted run = None).
Proof.
  intros secret run. subst run. unfold syncall_main. fold secret.
  destruct (String.eqb_spec secret EmptyString) as [E0|E0].
  { cbn. split; [discriminate|]. split; [intros ? [= <-]|]; auto. }
  destruct (String.eqb_spec (Getenv P "HOOK_URL") EmptyString) as [E1|E1].
  { cbn. split; [discriminate|]. split; [intros ? [= <-]|]; auto. }
  destruct (Nat.ltb_spec (length (Args P)) 2) as [E2|E2].
  { cbn. split; [discriminate|]. split; [intros ? [= <-]|]; auto. }
  assert (Hnot : ~ (secret = EmptyString \/ Getenv P "HOOK_URL" = EmptyString
                    \/ length (Args P) < 2)) by (intros [?|[?|?]]; [done|done|lia]).
  destruct (json_Marshal T (drop 1 (Args P))) as [b|err].
  2:{ cbn. split; [discriminate|]. split; [discriminate | tauto]. }
  pose proof (hmac_sha1_Write_ok (hmac_sha1 (bytes_of_string secret)) b) as Hw.
  assert (Hmac : Hex.EncodeToString
                   (hSum (fst (hWrite (hmac_sha1 (bytes_of_string secret)) b)))
                 = sign (bytes_of_string secret) b) by reflexivity.
  destruct (hWrite (hmac_sha1 (bytes_of_string secret)) b) as [h err].
  cbn [fst snd] in Hw, Hmac. subst err. rewrite Hmac.
  fold (trigger_request secret b).
  assert (Hreq : forall req, Some (trigger_request secret b) = Some req ->
            secret ≠ EmptyString /\ Getenv P "HOOK_URL" ≠ EmptyString
            /\ 2 <= length (Args P)
            /\ exists b0, @inl bytes error b = inl b0
                 /\ req = trigger_request secret b0
                 /\ forall e, hookSecret e = bytes_of_string secret ->
                              authenticated e req "sync-all" b0).
  { intros req [= <-]. do 3 (split; [done|]). exists b.
    split; [done|]. split; [done|]. intros e He.
    by apply trigger_request_authenticated. }
  destruct (client_Do T (Getenv P "HOOK_URL") (trigger_request secret b))
    as [err|err|err|code status body]; cbn [t_posted t_end];
    (split; [first [exact Hreq | discriminate]|]);
    (split; [discriminate | tauto]).
Qed.

Lemma syncall_main_posts_signed_witness :
  t_end (syncall_main (process_of [("GITHUB_SECRET", "s3cret")]%string
                         ["syncall"; "a"]%string)
           {| json_Marshal := fun _ => inl Sample.body;
              client_Do := fun _ _ => DoFails "connection refused"%string |})
  = TExit 1.
Proof.
  apply (syncall_main_posts_signed
           (process_of [("GITHUB_SECRET", "s3cret")]%string ["syncall"; "a"]%string)
           {| json_Marshal := fun _ => inl Sample.body;
              client_Do := fun _ _ => DoFails "connection refused"%string |}).
  right; left. reflexivity.
Defined.
